(** * BM25 inverted index and ranking evaluation: a verification development

    Shallow embedding of [inverted_index.py] (class [InvertedIndex]) and
    [evaluate.py] (class [Evaluate]).

    Conventions.
    - A Python [int] is a [Z].  A Python [dict] keyed by words is a
      [gmap string _]; a Python [set] of ids is a [gset Z].
    - A Python [str] is a [string]; a character is an 8-bit code point.
    - A raised exception is the [Raise] case of [result]; statements that run
      in sequence are chained with the bind of that monad.
    - The numbers stored as scores (Python [float], mixed with [int]) are
      kept behind the interface [PyNum]; its instance [Float64.float_num]
      is IEEE binary64, the type Python uses.
    - [evaluate.py] only divides small integers and adds the quotients;
      these are kept exact, as rationals ([Q]). *)

From Stdlib Require Import ZArith QArith Floats Lia Lqa Ascii String.
From stdpp Require Import base option list gmap strings fin_maps sorting.

Local Open Scope Z_scope.
Set Warnings "-inexact-float".

(** ** Exceptions *)

Inductive exn : Type :=
  | ValueError
  | IndexError
  | ZeroDivisionError.

Inductive result (A : Type) : Type :=
  | Ok (a : A)
  | Raise (e : exn).
Arguments Ok {A} a.
Arguments Raise {A} e.

#[global] Instance result_ret : MRet result := λ A a, Ok a.
#[global] Instance result_bind : MBind result := λ A B k r,
  match r with
  | Ok a => k a
  | Raise e => Raise e
  end.

Definition returns {A} (r : result A) : Prop := ∃ a, r = Ok a.

(** A [for] loop whose body may raise: the state is threaded through the
    items from left to right and the first exception ends the loop. *)
Fixpoint for_each {A St} (body : St → A → result St) (items : list A) (st : St)
  : result St :=
  match items with
  | [] => Ok st
  | x :: items' => st' ← body st x; for_each body items' st'
  end.

(** [l[i]] with Python's negative indices. *)
Definition py_get {A} (l : list A) (i : Z) : result A :=
  let n := Z.of_nat (length l) in
  let j := if i <? 0 then i + n else i in
  if (j <? 0) || (n <=? j) then Raise IndexError
  else match l !! Z.to_nat j with
       | Some x => Ok x
       | None => Raise IndexError
       end.

(** ** Strings: [re.split("[^A-Za-z]+", s)], [lower], [strip], [split("\t", n)] *)

Module Str.

Definition code (c : ascii) : nat := nat_of_ascii c.

(** The character class [A-Za-z]. *)
Definition is_alpha (c : ascii) : bool :=
  let n := code c in
  ((65 <=? n) && (n <=? 90) || (97 <=? n) && (n <=? 122))%nat.

(** [str.isspace] on the code points below 256. *)
Definition is_space (c : ascii) : bool :=
  let n := code c in
  ((9 <=? n) && (n <=? 13) || (28 <=? n) && (n <=? 32)
   || (n =? 133) || (n =? 160))%nat.

Definition tab : ascii := ascii_of_nat 9.

Definition lower_char (c : ascii) : ascii :=
  let n := code c in
  if ((65 <=? n) && (n <=? 90))%nat then ascii_of_nat (n + 32) else c.

Fixpoint lower (s : string) : string :=
  match s with
  | EmptyString => EmptyString
  | String c s' => String (lower_char c) (lower s')
  end.

Fixpoint lstrip (s : string) : string :=
  match s with
  | EmptyString => EmptyString
  | String c s' => if is_space c then lstrip s' else s
  end.

Fixpoint rstrip (s : string) : string :=
  match s with
  | EmptyString => EmptyString
  | String c s' =>
      match rstrip s' with
      | EmptyString => if is_space c then EmptyString else String c EmptyString
      | r => String c r
      end
  end.

Definition strip (s : string) : string := rstrip (lstrip s).

(** [re.split("[^A-Za-z]+", s)]: the pieces of [s] between the maximal runs
    of characters outside [A-Za-z].  [piece] is the piece being read and
    [in_sep] tells that the previous character belonged to a separator
    run.  A separator at either end of [s] leaves an empty piece there,
    and the empty string gives one empty piece. *)
Fixpoint re_split_from (s : string) (piece : string) (in_sep : bool) : list string :=
  match s with
  | EmptyString => [piece]
  | String c s' =>
      if is_alpha c then re_split_from s' (piece +:+ String c EmptyString) false
      else if in_sep then re_split_from s' piece true
      else piece :: re_split_from s' EmptyString true
  end.

Definition re_split (s : string) : list string := re_split_from s EmptyString false.

(** [s.split("\t", maxsplit)]: cut at the first [maxsplit] tabs. *)
Fixpoint split_tab_from (maxsplit : nat) (s : string) (piece : string) : list string :=
  match s with
  | EmptyString => [piece]
  | String c s' =>
      match maxsplit with
      | O => [piece +:+ s]
      | S m =>
          if Ascii.eqb c tab then piece :: split_tab_from m s' EmptyString
          else split_tab_from maxsplit s' (piece +:+ String c EmptyString)
      end
  end.

Definition split_tab (maxsplit : nat) (s : string) : list string :=
  split_tab_from maxsplit s EmptyString.

(** Number of tab-separated fields of a line: one more than its tabs. *)
Fixpoint count_tabs (s : string) : nat :=
  match s with
  | EmptyString => O
  | String c s' => ((if Ascii.eqb c tab then 1 else 0) + count_tabs s')%nat
  end.

Definition num_fields (s : string) : nat := S (count_tabs s).

End Str.

(** ** Numbers *)

(** The arithmetic the index performs on scores.  [of_int] is the conversion
    of an [int] operand, [half] the literal [0.5], [nlog2] is [math.log2]
    where it is defined, [is_zero] tells a divisor for which [/] raises. *)
Class PyNum (S : Type) : Type := {
  of_int : Z → S;
  half : S;
  nadd : S → S → S;
  nsub : S → S → S;
  nmul : S → S → S;
  ndiv : S → S → S;
  nlog2 : S → S;
  nlt : S → S → bool;
  is_zero : S → bool
}.

Section Numbers.
Context {S : Type} `{PyNum S}.

(** [x / y] *)
Definition py_div (x y : S) : result S :=
  if is_zero y then Raise ZeroDivisionError else Ok (ndiv x y).

(** [math.log2(x)]: a [ValueError] for zero and negative arguments. *)
Definition py_log2 (x : S) : result S :=
  if is_zero x || nlt x (of_int 0) then Raise ValueError else Ok (nlog2 x).

End Numbers.

(** ** [inverted_index.py]: class [InvertedIndex] *)

(** A document as stored in [self.docs]: title, description and the number
    of pieces [re.split] cuts its line into. *)
Definition doc : Type := string * string * Z.

(** The object during the first pass of [build_from_file]: the inverted
    lists hold [[doc_id, tf]] with an integer count, and [last_doc_id] is
    the local variable [doc_id]. *)
Record tf_index : Type := {
  tf_lists : gmap string (list (Z * Z));
  tf_docs : list doc;
  last_doc_id : Z
}.

Definition empty_tf_index : tf_index :=
  {| tf_lists := ∅; tf_docs := []; last_doc_id := 0 |}.

(** Body of the loop over the words of a line (lines 77 to 91). *)
Definition add_word (doc_id : Z) (inverted_lists : gmap string (list (Z * Z)))
    (word : string) : result (gmap string (list (Z * Z))) :=
  let word := Str.strip (Str.lower word) in
  if (String.length word =? 0)%nat then Ok inverted_lists
  else match inverted_lists !! word with
       | None => Ok (<[word := [(doc_id, 1)]]> inverted_lists)
       | Some l =>
           p ← py_get l (-1);
           if negb (p.1 =? doc_id) then
             Ok (<[word := l ++ [(doc_id, 1)]]> inverted_lists)
           else
             Ok (<[word := <[pred (length l) := (p.1, p.2 + 1)]> l]> inverted_lists)
       end.

(** Body of the loop over the lines of the file (lines 68 to 91).  The
    unpacking [title, description, _ = line.split("\t", 2)] raises
    [ValueError] unless the split has exactly three parts. *)
Definition ingest_line (st : tf_index) (line : string) : result tf_index :=
  let line := Str.strip line in
  let doc_id := last_doc_id st + 1 in
  match Str.split_tab 2 line with
  | [title; description; _] =>
      let words := Str.re_split line in
      let docs := tf_docs st ++ [(title, description, Z.of_nat (length words))] in
      inverted_lists ← for_each (add_word doc_id) words (tf_lists st);
      Ok {| tf_lists := inverted_lists; tf_docs := docs; last_doc_id := doc_id |}
  | _ => Raise ValueError
  end.

(** First pass: all lines, in file order, from the empty index. *)
Definition first_pass (lines : list string) : result tf_index :=
  for_each ingest_line lines empty_tf_index.

(** Invariant of the first pass: no inverted list is empty, the document
    ids of a list increase strictly, and none exceeds [bound]. *)
Definition lists_ok (bound : Z) (lists : gmap string (list (Z * Z))) : Prop :=
  ∀ word l, lists !! word = Some l →
    l ≠ [] ∧ StronglySorted Z.lt l.*1 ∧ Forall (λ p, p.1 ≤ bound) l.

Definition tf_index_ok (st : tf_index) : Prop :=
  lists_ok (last_doc_id st) (tf_lists st).

Section InvertedIndex.
Context {S : Type} `{PyNum S}.

(** A posting [[doc_id, score]]. *)
Definition posting : Type := Z * S.

Record index : Type := {
  inverted_lists : gmap string (list posting);
  docs : list doc;
  avdoclen : S
}.

(** [bm25tf] on one inverted list: every count [doc[1]] is replaced by
    [doc[1] * (k1 + 1) / (k1 * (1 - b + b * DL / avdoclen) + doc[1])]. *)
Definition bm25tf (docs : list doc) (avdoclen : S) (k1 b : S)
    (l : list (Z * Z)) : result (list posting) :=
  mapM (λ doc : Z * Z,
    let doc_id := doc.1 - 1 in
    d ← py_get docs doc_id;
    tf ← py_div (nmul b (of_int d.2)) avdoclen;
    let tf := nadd (nsub (of_int 1) b) tf in
    let tf := nmul k1 tf in
    let tf := nadd tf (of_int doc.2) in
    tf ← py_div (nmul (of_int doc.2) (nadd k1 (of_int 1))) tf;
    Ok (doc.1, tf)) l.

(** [bm25] on one inverted list: every score is multiplied by
    [IDF = math.log2((N - n + 0.5) / (n + 0.5) + 1)]. *)
Definition bm25 (docs : list doc) (l : list posting) : result (list posting) :=
  let N := Z.of_nat (length docs) in
  let n := Z.of_nat (length l) in
  q ← py_div (nadd (of_int (N - n)) half) (nadd (of_int n) half);
  IDF ← py_log2 (nadd q (of_int 1));
  Ok (map (λ doc : posting, (doc.1, nmul doc.2 IDF)) l).

(** Lines 94 to 97: the sum of the document lengths, divided by their
    number. *)
Definition average_length (docs : list doc) : result S :=
  let total := foldl (λ acc (d : doc), acc + d.2) 0 docs in
  if Z.of_nat (length docs) =? 0 then Raise ZeroDivisionError
  else Ok (ndiv (of_int total) (of_int (Z.of_nat (length docs)))).

(** Lines 99 to 101: the second pass, one word at a time. *)
Definition second_pass (docs : list doc) (avdoclen : S) (k b : S)
    (lists : gmap string (list (Z * Z))) : result (gmap string (list posting)) :=
  map_fold (λ word l (acc : result (gmap string (list posting))),
      done ← acc;
      l1 ← bm25tf docs avdoclen k b l;
      l2 ← bm25 docs l1;
      Ok (<[word := l2]> done))
    (Ok ∅) lists.

Definition build_from_file (lines : list string) (b k : S) : result index :=
  st ← first_pass lines;
  avdoclen ← average_length (tf_docs st);
  lists ← second_pass (tf_docs st) avdoclen k b (tf_lists st);
  Ok {| inverted_lists := lists; docs := tf_docs st; avdoclen := avdoclen |}.

(** [merge]: [rest1] and [rest2] are [list1[cursor1:]] and
    [list2[cursor2:]].  The outer [while] runs while both are non-empty and
    ends each round with [cursor1 += 1]; the inner [while] copies the
    entries of [list2] below the current entry of [list1], and returns
    [union] as soon as [list2] is used up. *)
Fixpoint merge_loop (rest1 rest2 union : list posting) {struct rest1} : list posting :=
  match rest1 with
  | [] => union
  | p1 :: rest1' =>
      (fix inner (rest2 union : list posting) {struct rest2} : list posting :=
         match rest2 with
         | [] => union
         | p2 :: rest2' =>
             if p2.1 <? p1.1 then inner rest2' (union ++ [p2])
             else
               let union :=
                 if p2.1 =? p1.1 then union ++ [(p2.1, nadd p1.2 p2.2)] else union in
               let union := if p2.1 >? p1.1 then union ++ [p1] else union in
               merge_loop rest1' rest2 union
         end) rest2 union
  end.

Definition merge (list1 list2 : list posting) : list posting :=
  merge_loop list1 list2 [].

(** [sorted(union, key=lambda x: x[1], reverse=True)]: a stable sort by
    decreasing score; an entry is placed behind the entries with a strictly
    larger score and before the later entries with the same score. *)
Fixpoint insert_by_score (x : posting) (l : list posting) : list posting :=
  match l with
  | [] => [x]
  | y :: l' => if nlt x.2 y.2 then y :: insert_by_score x l' else x :: l
  end.

Definition sorted_by_score (l : list posting) : list posting :=
  foldr insert_by_score [] l.

(** Body of the loop over the keywords (lines 212 to 216). *)
Definition fold_keyword (inverted_lists : gmap string (list posting))
    (union : list posting) (key : string) : list posting :=
  match inverted_lists !! key with
  | Some l => merge union l
  | None => []
  end.

(** Lines 207 to 223. *)
Definition process_query (inverted_lists : gmap string (list posting))
    (query : string) : result (list Z) :=
  let keywords := Str.re_split query in
  first ← py_get keywords 0;
  let union :=
    match inverted_lists !! first with
    | Some l => l
    | None => []
    end in
  let union := foldl (fold_keyword inverted_lists) union keywords in
  let sorted_union := sorted_by_score union in
  Ok (map fst sorted_union).

(** The loop of [process_query] as the specification words it: the
    accumulator starts from the first keyword's list and only the remaining
    keywords are folded into it.  Used for comparison only. *)
Definition process_query_remaining (inverted_lists : gmap string (list posting))
    (query : string) : result (list Z) :=
  let keywords := Str.re_split query in
  first ← py_get keywords 0;
  let union :=
    match inverted_lists !! first with
    | Some l => l
    | None => []
    end in
  let union := foldl (fold_keyword inverted_lists) union (tail keywords) in
  Ok (map fst (sorted_by_score union)).

End InvertedIndex.

(** ** Python's [float]: IEEE binary64 *)

Module Float64.

(** [float(z)] for an integer that binary64 holds exactly. *)
Definition float_of_Z (z : Z) : float :=
  if z <? 0 then PrimFloat.opp (PrimFloat.of_uint63 (Uint63.of_Z (- z)))
  else PrimFloat.of_uint63 (Uint63.of_Z z).

(** [math.log2] belongs to the C library; it is a parameter of the
    instance. *)
Definition float_num (log2 : float → float) : PyNum float := {|
  of_int := float_of_Z;
  half := 0.5%float;
  nadd := PrimFloat.add;
  nsub := PrimFloat.sub;
  nmul := PrimFloat.mul;
  ndiv := PrimFloat.div;
  nlog2 := log2;
  nlt := PrimFloat.ltb;
  is_zero := λ x, PrimFloat.eqb x 0%float
|}.

(** An executable stand-in for [math.log2], used to run the model on
    examples: [x = m * 2^e] with [m] in [[0.5, 1)], and
    [ln m = 2 * atanh ((m - 1) / (m + 1))] summed as a power series.  The
    theorems below hold for every choice of [log2]. *)
Fixpoint atanh_series (terms : nat) (t2 power k acc : float) : float :=
  match terms with
  | O => acc
  | Datatypes.S terms' =>
      atanh_series terms' t2 (power * t2)%float (k + 2)%float
        (acc + power / k)%float
  end.

Definition log2_series (x : float) : float :=
  let '(m, e) := Z.frexp x in
  let t := ((m - 1) / (m + 1))%float in
  let ln_m := (2 * atanh_series 24 (t * t) t 1 0)%float in
  (float_of_Z e + ln_m / 0x1.62e42fefa39efp-1)%float.

End Float64.

(** A corpus of four documents with the postings listed in the doctest of
    [build_from_file]: "animated" in documents 1, 2 and 4, "animation" in 3,
    "film" in 2 and 4, "movie" in all four, "non" in 2, "short" once in 3
    and twice in 4. *)
Definition example_corpus : list string :=
  [ "Movie" +:+ String Str.tab "animated" +:+ String Str.tab "1";
    "Movie" +:+ String Str.tab "Non-animated film" +:+ String Str.tab "2";
    "Movie" +:+ String Str.tab "short animation" +:+ String Str.tab "3";
    "Movie" +:+ String Str.tab "short, short animated film" +:+ String Str.tab "4" ]%string.

(** The index of the doctest of [process_query]. *)
Definition doctest_index : gmap string (list (Z * float)) :=
  {[ "foo" := [(1, 0.2%float); (3, 0.6%float)];
     "bar" := [(1, 0.4%float); (2, 0.7%float); (3, 0.5%float)];
     "baz" := [(2, 0.1%float)] ]}.

(** A corpus of one document whose title is capitalised. *)
Definition capitalised_corpus : list string :=
  [ "Movie" +:+ String Str.tab "film" +:+ String Str.tab "1" ]%string.

(** ** [evaluate.py]: class [Evaluate] *)

Module Evaluate.

(** [l[:k]], with Python's negative bound. *)
Definition slice_to {A} (l : list A) (k : Z) : list A :=
  if k <? 0 then take (length l - Z.to_nat (- k)) l else take (Z.to_nat k) l.

(** [precision_at_k]: the counter [precision] is an [int]; the quotient
    [precision / k] of two integers is kept exact, and raises for [k = 0]. *)
Definition precision_at_k (result_ids : list Z) (relevant_ids : gset Z) (k : Z)
  : result Q :=
  let precision :=
    foldl (λ precision a,
             if decide (a ∈ relevant_ids) then precision + 1 else precision)
          0 (slice_to result_ids k) in
  if k =? 0 then Raise ZeroDivisionError
  else Ok (inject_Z precision / inject_Z k)%Q.

(** [l.index(a)]: the position of the first [a], [ValueError] without one. *)
Fixpoint list_index (l : list Z) (a : Z) : result Z :=
  match l with
  | [] => Raise ValueError
  | x :: l' => if x =? a then Ok 0 else i ← list_index l' a; Ok (i + 1)
  end.

(** [sum(result)]: from 0, left to right. *)
Definition sum (l : list Q) : Q := foldl Qplus 0%Q l.

(** [average_precision]; [set(relevant_ids)] of a set is that set, and the
    loop over it visits [elements relevant_ids]. *)
Definition average_precision (result_ids : list Z) (relevant_ids : gset Z)
  : result Q :=
  R_list ← for_each (λ R_list a,
                       if decide (a ∈ result_ids) then
                         i ← list_index result_ids a; Ok (R_list ++ [i])
                       else Ok R_list)
                    (elements relevant_ids) [];
  result ← mapM (λ a, precision_at_k result_ids relevant_ids (a + 1)) R_list;
  if negb (length result =? 0)%nat then
    Ok (sum result / inject_Z (Z.of_nat (size relevant_ids)))%Q
  else Ok 0%Q.

(** Vocabulary of the specification: the number of relevant entries of a
    list, the 1-based rank of the first occurrence of an id in the result
    list (0 when it does not occur), the precision among the first [r]
    results, and the relevant ids that occur in the result list. *)
Definition hits (relevant_ids : gset Z) (l : list Z) : nat :=
  length (filter (λ a, a ∈ relevant_ids) l).

Definition rank (result_ids : list Z) (a : Z) : nat :=
  match list_find (λ x, x = a) result_ids with
  | Some (i, _) => Datatypes.S i
  | None => O
  end.

Definition precision_among_first (result_ids : list Z) (relevant_ids : gset Z)
    (r : nat) : Q :=
  (inject_Z (Z.of_nat (hits relevant_ids (take r result_ids)))
   / inject_Z (Z.of_nat r))%Q.

Definition found (result_ids : list Z) (relevant_ids : gset Z) : list Z :=
  filter (λ a, a ∈ result_ids) (elements relevant_ids).

End Evaluate.

(** ** Vocabulary for the contents of the index *)

(** Line 78: a piece of a line as it is looked up in the index. *)
Definition normalise (piece : string) : string := Str.strip (Str.lower piece).

(** The words of a line: its pieces in lower case, the empty ones left out. *)
Definition words_of_pieces (pieces : list string) : list string :=
  filter (λ w, w ≠ EmptyString) (normalise <$> pieces).

Definition words_of_line (line : string) : list string :=
  words_of_pieces (Str.re_split (Str.strip line)).

(** How often a word occurs among the words of a line. *)
Definition occurrences (word : string) (words : list string) : Z :=
  Z.of_nat (length (filter (λ w, w = word) words)).

(** The posting of a word for one document: none when the word does not
    occur in it. *)
Definition posting_for (word : string) (doc_id count : Z) : list (Z * Z) :=
  if count =? 0 then [] else [(doc_id, count)].

(** The postings of a word for the lines numbered from [doc_id] on. *)
Fixpoint postings_from (word : string) (doc_id : Z) (lines : list string)
  : list (Z * Z) :=
  match lines with
  | [] => []
  | line :: lines' =>
      posting_for word doc_id (occurrences word (words_of_line line))
      ++ postings_from word (doc_id + 1) lines'
  end.

(** The document ids of an inverted list. *)
Definition doc_ids {B} (l : list (Z * B)) : list Z := l.*1.

(** A word without postings has no list. *)
Definition list_or_absent {A} (l : list A) : option (list A) :=
  match l with
  | [] => None
  | _ => Some l
  end.

(** The characters [a-z] and [A-Z], and the characters of a string. *)
Definition is_lower (c : ascii) : bool :=
  let n := Str.code c in ((97 <=? n) && (n <=? 122))%nat.

Definition is_upper (c : ascii) : bool :=
  let n := Str.code c in ((65 <=? n) && (n <=? 90))%nat.

Definition chars (s : string) : list ascii := list_ascii_of_string s.

(** One round of the loop of [main] in [inverted_index.py] (lines 244 to
    251): what is printed, one string for each call of [print], for one line
    of input. *)
Section Main.
Context {S : Type} `{PyNum S}.


End Main.

(** ** [evaluate.py]: [Evaluate.evaluate] *)

Section EvaluateBenchmark.
Context {S : Type} `{PyNum S}.

(** [sum(l) / len(l)] *)
Definition mean (l : list Q) : result Q :=
  if (length l =? 0)%nat then Raise ZeroDivisionError
  else Ok (Evaluate.sum l / inject_Z (Z.of_nat (length l)))%Q.

(** Body of the loop over the benchmark (lines 61 to 65).  The relevant
    ids of an entry are a list; [a in relevant_ids] on it is membership in
    the set of its elements, and [average_precision] makes that set
    itself. *)
Definition evaluate_entry (inverted_lists : gmap string (list posting))
    (measures : list Q * list Q * list Q) (entry : string * list Z)
  : result (list Q * list Q * list Q) :=
  let '(MP3, MPR, MAP) := measures in
  let '(query, relevant_ids) := entry in
  result_ids ← process_query inverted_lists query;
  p3 ← Evaluate.precision_at_k result_ids (list_to_set relevant_ids) 3;
  pr ← Evaluate.precision_at_k result_ids (list_to_set relevant_ids)
         (Z.of_nat (length relevant_ids));
  ap ← Evaluate.average_precision result_ids (list_to_set relevant_ids);
  Ok (MP3 ++ [p3], MPR ++ [pr], MAP ++ [ap]).

(** Lines 57 to 66: the three means [MP@3], [MP@R] and [MAP]. *)
Definition evaluate (inverted_lists : gmap string (list posting))
    (benchmark : list (string * list Z)) : result (Q * Q * Q) :=
  measures ← for_each (evaluate_entry inverted_lists) benchmark ([], [], []);
  let '(MP3, MPR, MAP) := measures in
  m3 ← mean MP3;
  mr ← mean MPR;
  ma ← mean MAP;
  Ok (m3, mr, ma).

End EvaluateBenchmark.

(** Measures between 0 and 1. *)
Definition unit_interval (l : list Q) : Prop := Forall (λ x, 0 <= x <= 1)%Q l.

(** What [self.docs] holds for a line: the first two tab-separated fields
    of the stripped line as title and description, and a length between
    the number of words of the line and that number plus two. *)
Definition stores (line : string) (d : doc) : Prop :=
  (∃ rest, Str.strip line
           = (d.1.1 +:+ String Str.tab (d.1.2 +:+ String Str.tab rest))%string)
  ∧ (Str.tab ∉ chars (d.1.1)) ∧ (Str.tab ∉ chars (d.1.2))
  ∧ Z.of_nat (length (words_of_line line)) ≤ d.2
    ≤ Z.of_nat (length (words_of_line line)) + 2.

(** * Properties *)

Lemma py_get_head {A} (x : A) (l : list A) : py_get (x :: l) 0 = Ok x.
Proof. reflexivity. Qed.

(** ** [merge] *)

Section MergeFacts.
Context {S : Type} `{PyNum S}.

Lemma merge_loop_nil_r (rest1 union : list posting) :
  merge_loop rest1 [] union = union.
Proof. destruct rest1; reflexivity. Qed.

Lemma merge_loop_nil_l (rest2 union : list posting) :
  merge_loop [] rest2 union = union.
Proof. reflexivity. Qed.

(** One round of the inner loop: an entry of [list2] below the current
    entry of [list1] is copied, and [cursor2] moves on. *)
Lemma merge_loop_copy (p1 p2 : posting) (rest1 rest2 union : list posting) :
  p2.1 < p1.1 →
  merge_loop (p1 :: rest1) (p2 :: rest2) union
  = merge_loop (p1 :: rest1) rest2 (union ++ [p2]).
Proof.
  intros Hlt. simpl. apply Z.ltb_lt in Hlt. rewrite Hlt. by destruct rest2.
Qed.

(** End of a round of the outer loop with equal ids: the sum is appended
    and only [cursor1] moves on. *)
Lemma merge_loop_equal (p1 p2 : posting) (rest1 rest2 union : list posting) :
  p2.1 = p1.1 →
  merge_loop (p1 :: rest1) (p2 :: rest2) union
  = merge_loop rest1 (p2 :: rest2) (union ++ [(p2.1, nadd p1.2 p2.2)]).
Proof.
  intros Heq. simpl. rewrite Heq, Z.ltb_irrefl, Z.eqb_refl.
  by rewrite Z.gtb_ltb, Z.ltb_irrefl.
Qed.

(** End of a round with a larger id in [list2]: the entry of [list1] is
    appended and [cursor1] moves on. *)
Lemma merge_loop_keep (p1 p2 : posting) (rest1 rest2 union : list posting) :
  p1.1 < p2.1 →
  merge_loop (p1 :: rest1) (p2 :: rest2) union
  = merge_loop rest1 (p2 :: rest2) (union ++ [p1]).
Proof.
  intros Hlt. simpl.
  replace (p2.1 <? p1.1) with false by (symmetry; apply Z.ltb_ge; lia).
  replace (p2.1 =? p1.1) with false by (symmetry; apply Z.eqb_neq; lia).
  by replace (p2.1 >? p1.1) with true by (symmetry; rewrite Z.gtb_ltb; apply Z.ltb_lt; lia).
Qed.

(** C1. On the lists of the first doctest of [merge], whatever the five
    scores are, the code returns the entry for document 1 twice and never
    reaches document 6: [cursor2] does not move after two equal ids, and the
    loop ends as soon as [list1] is used up. *)
Theorem merge_doctest_lists (a b c d e : S) :
  merge [(1, a); (5, b)] [(1, c); (2, d); (6, e)]
  = [(1, nadd a c); (1, c); (2, d); (5, b)].
Proof. reflexivity. Qed.

(** C4. With an empty list on either side the loop body never runs, and
    [merge] returns the empty list, not the other list. *)
Theorem merge_empty_operand (A : list posting) :
  merge A [] = [] ∧ merge [] A = [].
Proof.
  split.
  - apply merge_loop_nil_r.
  - apply merge_loop_nil_l.
Qed.

(** ** [process_query] *)

Lemma fold_keywords_nil (inverted_lists : gmap string (list posting)) keys :
  foldl (fold_keyword inverted_lists) [] keys = [].
Proof.
  induction keys as [|key keys IH]; [done|].
  simpl. unfold fold_keyword at 2.
  destruct (inverted_lists !! key); [|done].
  unfold merge. by rewrite merge_loop_nil_l.
Qed.

Lemma fold_keywords_unknown (inverted_lists : gmap string (list posting))
    keys key union :
  key ∈ keys → inverted_lists !! key = None →
  foldl (fold_keyword inverted_lists) union keys = [].
Proof.
  intros Hin Hnone. revert union.
  induction keys as [|k keys IH]; intros union; [by apply elem_of_nil in Hin|].
  apply elem_of_cons in Hin as [<-|Hin]; simpl.
  - unfold fold_keyword at 2. rewrite Hnone. apply fold_keywords_nil.
  - by apply IH.
Qed.

Lemma re_split_from_not_nil s piece in_sep : Str.re_split_from s piece in_sep ≠ [].
Proof.
  revert piece in_sep. induction s as [|c s IH]; intros piece in_sep; simpl; [done|].
  destruct (Str.is_alpha c); [apply IH|]. destruct in_sep; [apply IH|done].
Qed.

(** [keywords[0]] exists: [process_query] returns for every query. *)
Lemma process_query_returns (inverted_lists : gmap string (list posting)) query :
  returns (process_query inverted_lists query).
Proof.
  unfold process_query, Str.re_split.
  pose proof (re_split_from_not_nil query EmptyString false) as Hne.
  destruct (Str.re_split_from query EmptyString false) as [|k0 ks]; [done|].
  rewrite py_get_head. by eexists.
Qed.

(** A keyword that is not a key of the index empties the result, wherever
    it stands in the query: after the reset, [merge] of the empty
    accumulator with any list is empty again. *)
Lemma process_query_unknown_keyword
    (inverted_lists : gmap string (list posting)) query key :
  key ∈ Str.re_split query → inverted_lists !! key = None →
  process_query inverted_lists query = Ok [].
Proof.
  intros Hin Hnone. unfold process_query.
  destruct (Str.re_split query) as [|k0 ks] eqn:Hks; [by apply elem_of_nil in Hin|].
  rewrite py_get_head. cbn -[foldl].
  by rewrite (fold_keywords_unknown _ _ key).
Qed.

End MergeFacts.

Section QueryOnFloats.
Variable log2 : float → float.
#[local] Abbreviation num := (Float64.float_num log2).

(** C2. On the index and the two keywords of the doctest of
    [process_query], the loop folds the first keyword's list into an
    accumulator that already is that list: the code returns five ids, where
    folding only the second keyword (with the same [merge]) returns four. *)
Theorem process_query_folds_first_keyword_again :
  process_query (H := num) doctest_index "foo bar" = Ok [3; 1; 2; 1; 1]
  ∧ process_query_remaining (H := num) doctest_index "foo bar" = Ok [3; 2; 1; 1].
Proof. split; vm_compute; reflexivity. Qed.

(** C3. A document with the word "Movie" is indexed under "movie"; the
    query "movie" finds it, the queries "Movie" and "MOVIE" do not, since
    the keywords of a query are not put in lower case; and the query
    "movie!" does not either, since the empty piece after the "!" is kept
    as a keyword. *)
Theorem query_keywords_are_not_normalised :
  ∃ idx, build_from_file (H := num) capitalised_corpus 0.75%float 1.75%float = Ok idx
    ∧ is_Some (inverted_lists idx !! "movie")
    ∧ process_query (H := num) (inverted_lists idx) "movie" = Ok [1]
    ∧ process_query (H := num) (inverted_lists idx) "Movie" = Ok []
    ∧ process_query (H := num) (inverted_lists idx) "MOVIE" = Ok []
    ∧ process_query (H := num) (inverted_lists idx) "movie!" = Ok [].
Proof.
  eexists. split; [vm_compute; reflexivity|].
  repeat split; try (vm_compute; reflexivity).
  vm_compute. by eexists.
Qed.

End QueryOnFloats.

(** ** [build_from_file]: the first pass *)

Lemma bind_Ok_inv {A B} (r : result A) (k : A → result B) (b : B) :
  r ≫= k = Ok b → ∃ a, r = Ok a ∧ k a = Ok b.
Proof. destruct r as [a|e]; [by exists a|done]. Qed.

Lemma py_get_last {A} (l : list A) (x : A) : py_get (l ++ [x]) (-1) = Ok x.
Proof.
  unfold py_get. rewrite length_app. simpl.
  replace (-1 <? 0) with true by done.
  destruct (_ || _) eqn:Hrange.
  { apply orb_true_iff in Hrange as [?%Z.ltb_lt|?%Z.leb_le]; lia. }
  replace (Z.to_nat (-1 + Z.of_nat (length l + 1))) with (length l + 0)%nat by lia.
  by rewrite lookup_app_r, Nat.add_0_r, Nat.sub_diag by lia.
Qed.

Lemma lists_ok_mono (bound bound' : Z) lists :
  bound ≤ bound' → lists_ok bound lists → lists_ok bound' lists.
Proof.
  intros Hle Hok word l Hl. destruct (Hok word l Hl) as (Hne & Hsorted & Hbound).
  repeat split; [done..|].
  eapply Forall_impl; [exact Hbound|]. simpl. lia.
Qed.

Lemma lists_ok_insert (bound : Z) lists word l :
  lists_ok bound lists →
  l ≠ [] → StronglySorted Z.lt l.*1 → Forall (λ p, p.1 ≤ bound) l →
  lists_ok bound (<[word := l]> lists).
Proof.
  intros Hok Hne Hsorted Hbound w l' Hl'.
  destruct (decide (word = w)) as [->|Hw].
  - rewrite lookup_insert_eq in Hl'. by injection Hl' as <-.
  - rewrite lookup_insert_ne in Hl' by done. by apply (Hok w).
Qed.

(** Under the invariant the loop body never raises, and keeps it: a new id
    goes behind a last id that is smaller, and a count is raised in place. *)
Lemma add_word_ok (doc_id : Z) lists (word : string) :
  lists_ok doc_id lists →
  ∃ lists', add_word doc_id lists word = Ok lists' ∧ lists_ok doc_id lists'.
Proof.
  intros Hok. unfold add_word.
  destruct (_ =? _)%nat; [by eexists|].
  destruct (lists !! _) as [l|] eqn:Hl.
  - destruct (Hok _ l Hl) as (Hne & Hsorted & Hbound).
    destruct l as [|[qd qc] l0 _] using rev_ind; [done|]. clear Hne.
    rewrite py_get_last. simpl.
    apply Forall_app in Hbound as [Hbound0 Hq].
    rewrite Forall_singleton in Hq. simpl in Hq.
    rewrite fmap_app in Hsorted. simpl in Hsorted.
    destruct (Z.eqb_spec qd doc_id) as [Heq|Hneq]; simpl.
    + eexists. split; [reflexivity|].
      rewrite length_app. simpl.
      replace (pred (length l0 + 1)) with (length l0 + 0)%nat by lia.
      rewrite insert_app_r. simpl.
      apply lists_ok_insert; [done|by destruct l0|..].
      * by rewrite fmap_app.
      * apply Forall_app. split; [done|]. apply Forall_singleton. simpl. lia.
    + eexists. split; [reflexivity|].
      apply lists_ok_insert; [done|by destruct l0|..].
      * rewrite !fmap_app. simpl. apply StronglySorted_app_2.
        -- intros x1 x2 Hx1 ->%list_elem_of_singleton.
           apply elem_of_app in Hx1 as [Hx1| ->%list_elem_of_singleton]; [|lia].
           assert (x1 < qd) as Hlt; [|lia].
           apply (StronglySorted_app_1_elem_of _ _ _ x1 qd Hsorted Hx1).
           by apply list_elem_of_singleton.
        -- exact Hsorted.
        -- repeat constructor.
      * repeat (apply Forall_app; split); [done|..];
          apply Forall_singleton; simpl; lia.
  - eexists. split; [reflexivity|].
    apply lists_ok_insert; [done|done|..].
    + repeat constructor.
    + apply Forall_singleton. simpl. lia.
Qed.

Lemma add_words_ok (doc_id : Z) (words : list string) lists :
  lists_ok doc_id lists →
  ∃ lists', for_each (add_word doc_id) words lists = Ok lists'
    ∧ lists_ok doc_id lists'.
Proof.
  revert lists. induction words as [|word words IH]; intros lists Hok; simpl.
  - by eexists.
  - destruct (add_word_ok doc_id lists word Hok) as (lists1 & -> & Hok1).
    simpl. by apply IH.
Qed.

Lemma length_split_tab_from (maxsplit : nat) (s piece : string) :
  length (Str.split_tab_from maxsplit s piece)
  = (Datatypes.S maxsplit `min` Str.num_fields s)%nat.
Proof.
  unfold Str.num_fields.
  revert maxsplit piece.
  induction s as [|c s IH]; intros maxsplit piece;
    cbn [Str.split_tab_from Str.count_tabs].
  - cbn [length]. lia.
  - destruct maxsplit as [|m]; [cbn [length]; lia|].
    destruct (Ascii.eqb c Str.tab); cbn [length]; rewrite IH; lia.
Qed.

(** A line is ingested exactly when, stripped, it has three fields or more;
    with fewer the unpacking raises [ValueError]. *)
Lemma ingest_line_cases (st : tf_index) (line : string) :
  tf_index_ok st →
  if decide (3 ≤ Str.num_fields (Str.strip line))%nat then
    ∃ st', ingest_line st line = Ok st' ∧ tf_index_ok st'
           ∧ last_doc_id st' = last_doc_id st + 1
  else ingest_line st line = Raise ValueError.
Proof.
  intros Hok. unfold ingest_line. cbv zeta.
  pose proof (length_split_tab_from 2 (Str.strip line) EmptyString) as Hlen.
  fold (Str.split_tab 2 (Str.strip line)) in Hlen.
  destruct (decide _) as [Hge|Hlt].
  - assert (length (Str.split_tab 2 (Str.strip line)) = 3%nat) as Hlen3 by lia.
    destruct (Str.split_tab 2 (Str.strip line)) as [|t [|d [|r [|x parts]]]];
      try discriminate Hlen3.
    destruct (add_words_ok (last_doc_id st + 1)
                (Str.re_split (Str.strip line)) (tf_lists st)) as (lists' & -> & Hok').
    { eapply lists_ok_mono; [|exact Hok]. lia. }
    simpl. by eexists.
  - assert (length (Str.split_tab 2 (Str.strip line)) < 3)%nat as Hlen3 by lia.
    destruct (Str.split_tab 2 (Str.strip line)) as [|t [|d [|r [|x parts]]]];
      try done; cbn [length] in Hlen3; lia.
Qed.

Lemma first_pass_from_ok (lines : list string) (st st' : tf_index) :
  tf_index_ok st → for_each ingest_line lines st = Ok st' → tf_index_ok st'.
Proof.
  revert st. induction lines as [|line lines IH]; intros st Hok Hrun; simpl in Hrun.
  - by injection Hrun as <-.
  - apply bind_Ok_inv in Hrun as (st1 & Hline & Hrest).
    pose proof (ingest_line_cases st line Hok) as Hcases.
    case_decide; [|congruence].
    destruct Hcases as (st1' & Hline' & Hok1 & _).
    rewrite Hline in Hline'. injection Hline' as <-.
    by apply (IH st1).
Qed.

Lemma empty_tf_index_ok : tf_index_ok empty_tf_index.
Proof. intros word l Hl. simpl in Hl. by rewrite lookup_empty in Hl. Qed.

(** C9 (as the code has it). Whatever was ingested before, a line raises
    [ValueError] exactly when, stripped of surrounding white space, it has
    fewer than three tab-separated fields, and is ingested exactly when it
    has three or more. *)
Theorem ingest_line_needs_three_fields (st : tf_index) (line : string) :
  tf_index_ok st →
  (ingest_line st line = Raise ValueError
     ↔ (Str.num_fields (Str.strip line) < 3)%nat)
  ∧ (returns (ingest_line st line)
     ↔ (3 ≤ Str.num_fields (Str.strip line))%nat).
Proof.
  intros Hok. pose proof (ingest_line_cases st line Hok) as Hcases.
  case_decide as Hge.
  - destruct Hcases as (st' & Hrun & _). rewrite Hrun. split.
    + split; [done|lia].
    + split; [done|]. intros _. by exists st'.
  - rewrite Hcases. split.
    + split; [lia|done].
    + split; [|lia]. by intros [st' ?].
Qed.

Lemma ingest_line_needs_three_fields_witness :
  tf_index_ok empty_tf_index
  ∧ (ingest_line empty_tf_index "solo" = Raise ValueError
       ↔ (Str.num_fields (Str.strip "solo") < 3)%nat)
  ∧ (returns (ingest_line empty_tf_index "solo")
       ↔ (3 ≤ Str.num_fields (Str.strip "solo"))%nat).
Proof.
  split; [exact empty_tf_index_ok|].
  apply (ingest_line_needs_three_fields empty_tf_index "solo").
  exact empty_tf_index_ok.
Defined.

Example full_record_ingested :
  ∃ st', ingest_line empty_tf_index
           ("Movie" +:+ String Str.tab "An animated film" +:+ String Str.tab "7"
            +:+ String Str.tab "8.1" +:+ String Str.tab "3")%string
         = Ok st'
    ∧ last_doc_id st' = 1
    ∧ tf_lists st' !! "animated" = Some [(1, 1)].
Proof. eexists. split; [vm_compute; reflexivity|]. split; vm_compute; reflexivity. Qed.

(** C9 (as claimed) fails: a line with a title and a description, and
    nothing else, has the two fields the claim requires and is rejected. *)
Lemma title_and_description_do_not_suffice :
  ¬ (∀ line : string,
       (2 ≤ Str.num_fields (Str.strip line))%nat →
       returns (ingest_line empty_tf_index line)).
Proof.
  intros Hclaim.
  destruct (Hclaim ("title" +:+ String Str.tab "description")%string) as [st' Hrun].
  - vm_compute. lia.
  - vm_compute in Hrun. discriminate Hrun.
Qed.

(** ** [build_from_file]: the second pass and the built index *)

Lemma StronglySorted_lt_NoDup (ids : list Z) : StronglySorted Z.lt ids → NoDup ids.
Proof.
  induction 1 as [|x ids _ IH Hall]; constructor; [|done].
  intros Hin. rewrite Forall_forall in Hall. specialize (Hall x Hin). lia.
Qed.

Section SecondPass.
Context {S : Type} `{PyNum S}.
#[local] Abbreviation posting := (@posting S).

Lemma mapM_ids {A} (f : A → result posting) (id : A → Z) (l : list A)
    (scored : list posting) :
  (∀ x y, f x = Ok y → y.1 = id x) →
  mapM f l = Ok scored → scored.*1 = id <$> l.
Proof.
  intros Hf. revert scored.
  induction l as [|x l IH]; intros scored Hrun; simpl in Hrun.
  - by injection Hrun as <-.
  - apply bind_Ok_inv in Hrun as (y & Hy & Hrun).
    apply bind_Ok_inv in Hrun as (ys & Hys & Hrun).
    injection Hrun as <-. rewrite !fmap_cons. by rewrite (Hf x y Hy), (IH ys Hys).
Qed.

(** [bm25tf] and [bm25] rewrite [doc[1]] and leave [doc[0]] alone. *)
Lemma bm25tf_ids (docs : list doc) (avdoclen k1 b : S) (l : list (Z * Z))
    (scored : list posting) :
  bm25tf docs avdoclen k1 b l = Ok scored → scored.*1 = l.*1.
Proof.
  apply mapM_ids. intros x y Hy.
  apply bind_Ok_inv in Hy as (d & _ & Hy).
  apply bind_Ok_inv in Hy as (tf & _ & Hy).
  apply bind_Ok_inv in Hy as (tf' & _ & Hy).
  by injection Hy as <-.
Qed.

Lemma bm25_ids (docs : list doc) (l scored : list posting) :
  bm25 docs l = Ok scored → scored.*1 = l.*1.
Proof.
  unfold bm25. intros Hrun.
  apply bind_Ok_inv in Hrun as (q & _ & Hrun).
  apply bind_Ok_inv in Hrun as (IDF & _ & Hrun).
  injection Hrun as <-. rewrite <- list_fmap_compose. done.
Qed.

(** The second pass keeps the words, and for each word the document ids of
    its list. *)
Lemma second_pass_ids (docs : list doc) (avdoclen k b : S)
    (lists : gmap string (list (Z * Z))) (scored : gmap string (list posting)) :
  second_pass docs avdoclen k b lists = Ok scored →
  ∀ word l', scored !! word = Some l' →
    ∃ l, lists !! word = Some l ∧ l'.*1 = l.*1.
Proof.
  unfold second_pass. revert scored.
  apply (map_fold_weak_ind (λ (acc : result (gmap string (list posting))) lists,
           ∀ scored, acc = Ok scored →
             ∀ word l', scored !! word = Some l' →
               ∃ l, lists !! word = Some l ∧ l'.*1 = l.*1)).
  - intros scored [= <-] word l' Hl'. by rewrite lookup_empty in Hl'.
  - intros w l lists0 acc Hfresh IH scored Hrun word l' Hl'.
    apply bind_Ok_inv in Hrun as (done_ & Hacc & Hrun).
    apply bind_Ok_inv in Hrun as (l1 & Hl1 & Hrun).
    apply bind_Ok_inv in Hrun as (l2 & Hl2 & Hrun).
    injection Hrun as <-.
    destruct (decide (w = word)) as [->|Hw].
    + rewrite lookup_insert_eq in Hl'. injection Hl' as <-.
      exists l. rewrite lookup_insert_eq. split; [done|].
      by rewrite (bm25_ids _ _ _ Hl2), (bm25tf_ids _ _ _ _ _ _ Hl1).
    + rewrite lookup_insert_ne in Hl' by done.
      rewrite lookup_insert_ne by done. by apply (IH done_).
Qed.

(** C7. When [build_from_file] completes, the document ids of every
    inverted list increase strictly, so none occurs twice in a list. *)
Theorem built_lists_strictly_increasing (lines : list string) (b k : S) (idx : index) :
  build_from_file lines b k = Ok idx →
  ∀ word l, inverted_lists idx !! word = Some l →
    StronglySorted Z.lt l.*1 ∧ NoDup l.*1.
Proof.
  unfold build_from_file. intros Hrun word l' Hl'.
  apply bind_Ok_inv in Hrun as (st & Hfirst & Hrun).
  apply bind_Ok_inv in Hrun as (avdl & _ & Hrun).
  apply bind_Ok_inv in Hrun as (scored & Hsecond & Hrun).
  injection Hrun as <-. simpl in Hl'.
  destruct (second_pass_ids _ _ _ _ _ _ Hsecond word l' Hl') as (l & Hl & ->).
  pose proof (first_pass_from_ok lines _ st empty_tf_index_ok Hfirst) as Hok.
  destruct (Hok word l Hl) as (_ & Hsorted & _).
  split; [done|]. by apply StronglySorted_lt_NoDup.
Qed.

End SecondPass.

Lemma built_lists_strictly_increasing_witness :
  ∃ idx l,
    build_from_file (H := Float64.float_num Float64.log2_series)
      example_corpus 0.75%float 1.75%float = Ok idx
    ∧ inverted_lists idx !! "animated" = Some l
    ∧ l.*1 = [1; 2; 4]
    ∧ StronglySorted Z.lt l.*1 ∧ NoDup l.*1.
Proof.
  assert (∃ idx,
            build_from_file (H := Float64.float_num Float64.log2_series)
              example_corpus 0.75%float 1.75%float = Ok idx
            ∧ ∃ l, inverted_lists idx !! "animated" = Some l ∧ l.*1 = [1; 2; 4])
    as (idx & Hbuild & l & Hl & Hids).
  { eexists. split; [vm_compute; reflexivity|].
    eexists. split; [vm_compute; reflexivity|reflexivity]. }
  exists idx, l. repeat split; try assumption;
    apply (built_lists_strictly_increasing
             (H := Float64.float_num Float64.log2_series)
             example_corpus 0.75%float 1.75%float idx Hbuild "animated" l Hl).
Defined.

(** ** The scores of the example corpus in binary64 *)

Section FloatScores.
Variable log2 : float → float.

(** NaN absorbs a product, whatever the other factor. *)
Lemma mul_nan_l (y : float) : (nan * y)%float = nan.
Proof.
  rewrite <- (SF2Prim_Prim2SF (nan * y)), mul_spec.
  change (Prim2SF nan) with S754_nan.
  by destruct (Prim2SF y).
Qed.

(** C5. With [b = 0] and [k = float("inf")], [bm25tf] computes
    [tf * (inf + 1) / (inf * 1.0 + tf)], that is [inf / inf]: every score of
    the example corpus is NaN after the second pass, for "animation" in its
    single document and for "movie" in all four, whatever [math.log2]
    returns.  No posting has the score 2.000 or 0.000. *)
Theorem infinite_k_gives_nan_scores :
  ∃ idx,
    build_from_file (H := Float64.float_num log2) example_corpus 0%float infinity
      = Ok idx
    ∧ inverted_lists idx !! "animation" = Some [(3, nan)]
    ∧ inverted_lists idx !! "movie" = Some [(1, nan); (2, nan); (3, nan); (4, nan)].
Proof.
  eexists. split; [vm_compute; reflexivity|].
  split; vm_compute; by rewrite !mul_nan_l.
Qed.

(** With a finite [k] the factor of a word that occurs in all four documents
    is [log2 ((4 - 4 + 0.5) / (4 + 0.5) + 1)], the logarithm of [10/9] and
    not of 1: the scores of "movie" are not zero either. *)
Lemma idf_of_word_in_every_document (d1 d2 d3 d4 : doc) (s1 s2 s3 s4 : float) :
  bm25 (H := Float64.float_num log2) [d1; d2; d3; d4]
       [(1, s1); (2, s2); (3, s3); (4, s4)]
  = Ok [(1, PrimFloat.mul s1 (log2 0x1.1c71c71c71c72p+0%float));
        (2, PrimFloat.mul s2 (log2 0x1.1c71c71c71c72p+0%float));
        (3, PrimFloat.mul s3 (log2 0x1.1c71c71c71c72p+0%float));
        (4, PrimFloat.mul s4 (log2 0x1.1c71c71c71c72p+0%float))].
Proof. vm_compute. reflexivity. Qed.

End FloatScores.

(** ** [precision_at_k] and [average_precision] *)

Module EvaluateFacts.
Import Evaluate.

Lemma count_loop (relevant_ids : gset Z) (l : list Z) (start : Z) :
  foldl (λ precision a,
           if decide (a ∈ relevant_ids) then precision + 1 else precision)
        start l
  = start + Z.of_nat (hits relevant_ids l).
Proof.
  revert start. induction l as [|a l IH]; intros start; simpl.
  - unfold hits. simpl. lia.
  - rewrite IH. unfold hits. rewrite filter_cons.
    destruct (decide (a ∈ relevant_ids)); simpl; lia.
Qed.

Lemma hits_le_length relevant_ids l : (hits relevant_ids l ≤ length l)%nat.
Proof. unfold hits. apply length_filter. Qed.

Lemma precision_at_positive (result_ids : list Z) (relevant_ids : gset Z) (k : Z) :
  0 < k →
  precision_at_k result_ids relevant_ids k
  = Ok (precision_among_first result_ids relevant_ids (Z.to_nat k)).
Proof.
  intros Hk. unfold precision_at_k, precision_among_first, slice_to.
  destruct (k <? 0) eqn:Hneg; [lia|].
  destruct (k =? 0) eqn:Hz; [lia|].
  rewrite count_loop, Z.add_0_l, Z2Nat.id by lia. reflexivity.
Qed.

Lemma fraction_bounds (c k : Z) :
  0 ≤ c → c ≤ k → 0 < k → (0 <= inject_Z c / inject_Z k <= 1)%Q.
Proof.
  intros Hc Hck Hk.
  assert (0 < inject_Z k)%Q as Hk' by (change 0%Q with (inject_Z 0); rewrite <- Zlt_Qlt; exact Hk).
  split.
  - apply Qle_shift_div_l; [exact Hk'|]. rewrite Qmult_0_l.
    change 0%Q with (inject_Z 0). rewrite <- Zle_Qle. exact Hc.
  - apply Qle_shift_div_r; [exact Hk'|]. rewrite Qmult_1_l.
    change 1%Q with (inject_Z 1). rewrite <- Zle_Qle. exact Hck.
Qed.

Lemma fraction_mono (c d k : Z) :
  c ≤ d → 0 < k → (inject_Z c / inject_Z k <= inject_Z d / inject_Z k)%Q.
Proof.
  intros Hcd Hk.
  assert (0 < inject_Z k)%Q as Hk' by (change 0%Q with (inject_Z 0); rewrite <- Zlt_Qlt; exact Hk).
  apply Qle_shift_div_r; [exact Hk'|].
  unfold Qdiv. rewrite <- Qmult_assoc, (Qmult_comm (/ _)), Qmult_inv_r, Qmult_1_r.
  - rewrite <- Zle_Qle. exact Hcd.
  - intros Heq. rewrite Heq in Hk'. by apply Qlt_irrefl in Hk'.
Qed.

(** C8. For [k = 0] the division [precision / k] raises
    [ZeroDivisionError]; no value is returned. *)
Theorem precision_at_zero_raises (result_ids : list Z) (relevant_ids : gset Z) :
  precision_at_k result_ids relevant_ids 0 = Raise ZeroDivisionError.
Proof. reflexivity. Qed.

(** C10. For [k > 0], [precision_at_k] returns the number of relevant
    entries among the first [k] results divided by [k] itself; the value
    lies between 0 and 1, and is at most [len(result_ids) / k]. *)
Theorem precision_at_k_divides_by_k
    (result_ids : list Z) (relevant_ids : gset Z) (k : Z) :
  0 < k →
  ∃ v, precision_at_k result_ids relevant_ids k = Ok v
    ∧ v = (inject_Z (Z.of_nat (hits relevant_ids (take (Z.to_nat k) result_ids)))
           / inject_Z k)%Q
    ∧ (0 <= v <= 1)%Q
    ∧ (v <= inject_Z (Z.of_nat (length result_ids)) / inject_Z k)%Q.
Proof.
  intros Hk. eexists. split; [by apply precision_at_positive|].
  unfold precision_among_first. rewrite Z2Nat.id by lia.
  pose proof (hits_le_length relevant_ids (take (Z.to_nat k) result_ids)) as Hle.
  rewrite length_take in Hle.
  split; [reflexivity|]. split.
  - apply fraction_bounds; lia.
  - apply fraction_mono; lia.
Qed.

Lemma precision_at_k_divides_by_k_witness :
  0 < 8
  ∧ ∃ v, precision_at_k [5; 3; 6; 1; 2] {[1; 2; 5; 6; 7; 8]} 8 = Ok v
      ∧ v = (inject_Z (Z.of_nat (hits {[1; 2; 5; 6; 7; 8]}%Z
                                    (take (Z.to_nat 8) [5; 3; 6; 1; 2]%Z)))
             / inject_Z 8)%Q
      ∧ (0 <= v <= 1)%Q
      ∧ (v <= inject_Z (Z.of_nat (length [5; 3; 6; 1; 2]%Z)) / inject_Z 8)%Q.
Proof.
  split; [lia|].
  apply (precision_at_k_divides_by_k [5; 3; 6; 1; 2] {[1; 2; 5; 6; 7; 8]} 8). lia.
Defined.

(** [rank] is the 1-based position of the first occurrence. *)
Lemma rank_first_occurrence (l : list Z) (a : Z) :
  a ∈ l →
  (1 ≤ rank l a)%nat ∧ l !! pred (rank l a) = Some a
  ∧ ∀ j, (j < pred (rank l a))%nat → l !! j ≠ Some a.
Proof.
  intros Hin. unfold rank.
  destruct (list_find (λ x, x = a) l) as [[i y]|] eqn:Hfind.
  - apply list_find_Some in Hfind as (Hi & -> & Hbefore).
    simpl. repeat split; [lia|done|].
    intros j Hj Hlook. by apply (Hbefore j a).
  - apply list_find_None in Hfind.
    rewrite Forall_forall in Hfind. by destruct (Hfind a Hin).
Qed.

Lemma rank_cons (x : Z) (l : list Z) (a : Z) :
  rank (x :: l) a
  = if decide (x = a) then 1%nat
    else match rank l a with O => O | r => Datatypes.S r end.
Proof.
  unfold rank. simpl.
  destruct (decide (x = a)); [done|].
  by destruct (list_find (λ x, x = a) l) as [[i y]|].
Qed.

Lemma list_index_rank (l : list Z) (a : Z) :
  a ∈ l → list_index l a = Ok (Z.of_nat (rank l a) - 1).
Proof.
  induction l as [|x l IH]; intros Hin; [by apply elem_of_nil in Hin|].
  simpl. rewrite rank_cons.
  destruct (Z.eqb_spec x a) as [->|Hne].
  - by rewrite decide_True.
  - rewrite decide_False by done.
    apply elem_of_cons in Hin as [?|Hin]; [congruence|].
    rewrite (IH Hin). simpl.
    destruct (rank_first_occurrence l a Hin) as [Hpos _].
    destruct (rank l a) as [|r]; [lia|]. f_equal. lia.
Qed.

(** The first loop of [average_precision] collects the 0-based positions
    of the relevant ids that occur among the results. *)
Lemma positions_loop (result_ids ids : list Z) (R_list : list Z) :
  for_each (λ R_list a,
              if decide (a ∈ result_ids) then
                i ← list_index result_ids a; Ok (R_list ++ [i])
              else Ok R_list) ids R_list
  = Ok (R_list ++ map (λ a, Z.of_nat (rank result_ids a) - 1)
                      (filter (λ a, a ∈ result_ids) ids)).
Proof.
  revert R_list. induction ids as [|a ids IH]; intros R_list; simpl.
  - by rewrite app_nil_r.
  - rewrite filter_cons. destruct (decide (a ∈ result_ids)) as [Hin|Hout].
    + rewrite (list_index_rank _ _ Hin). simpl. rewrite IH, <- app_assoc. done.
    + simpl. apply IH.
Qed.

(** The second loop takes the precision at each of these positions plus
    one, which never is 0. *)
Lemma precisions_loop (result_ids : list Z) (relevant_ids : gset Z) (ids : list Z) :
  Forall (λ a, a ∈ result_ids) ids →
  mapM (λ a, precision_at_k result_ids relevant_ids (a + 1))
       (map (λ a, Z.of_nat (rank result_ids a) - 1) ids)
  = Ok (map (λ a, precision_among_first result_ids relevant_ids (rank result_ids a))
            ids).
Proof.
  induction 1 as [|a ids Hin _ IH]; [done|].
  destruct (rank_first_occurrence result_ids a Hin) as [Hpos _].
  simpl. rewrite precision_at_positive by lia.
  simpl. rewrite IH. simpl.
  by replace (Z.to_nat (Z.of_nat (rank result_ids a) - 1 + 1))
    with (rank result_ids a) by lia.
Qed.

(** C6. [average_precision] returns the sum, over the relevant ids that
    occur in the result list, of the precision among the results up to the
    rank of the id, divided by the number of relevant ids; it returns 0 when
    no relevant id occurs.  On the doctest the value is 0.525. *)
Theorem average_precision_sums_precision_at_ranks :
  (∀ (result_ids : list Z) (relevant_ids : gset Z),
     ∃ v, average_precision result_ids relevant_ids = Ok v
       ∧ (v == sum (map (λ a, precision_among_first result_ids relevant_ids
                                (rank result_ids a))
                        (found result_ids relevant_ids))
               / inject_Z (Z.of_nat (size relevant_ids)))%Q
       ∧ (found result_ids relevant_ids = [] → v = 0%Q))
  ∧ ∃ v, average_precision [7; 17; 9; 42; 5] {[5; 7; 12; 42]} = Ok v
      ∧ (v == 0.525)%Q.
Proof.
  split.
  - intros result_ids relevant_ids. unfold average_precision.
    rewrite positions_loop. simpl. fold (found result_ids relevant_ids).
    rewrite precisions_loop by apply Forall_forall, list_elem_of_filter.
    simpl. rewrite length_map.
    destruct (found result_ids relevant_ids) as [|a ids] eqn:Hfound; simpl.
    + eexists. split; [reflexivity|]. split; [|done].
      unfold sum. simpl. unfold Qdiv. by rewrite Qmult_0_l.
    + eexists. split; [reflexivity|]. split; [reflexivity|done].
  - eexists. split; [vm_compute; reflexivity|]. reflexivity.
Qed.

(** The doctest value in binary64: the three precisions [1/1], [2/4] and
    [3/5], added from 0 in whichever order the set is visited and divided
    by 4, give the float [0.525]. *)
Lemma doctest_average_in_binary64 :
  forallb (λ l, PrimFloat.eqb (foldl PrimFloat.add 0%float l / 4)%float 0.525%float)
          (permutations [(1 / 1)%float; (2 / 4)%float; (3 / 5)%float])
  = true.
Proof. vm_compute. reflexivity. Qed.

Lemma average_precision_sums_precision_at_ranks_witness :
  found [1; 2] {[3]} = [] ∧ average_precision [1; 2] {[3]} = Ok 0%Q.
Proof.
  split; [reflexivity|].
  destruct (proj1 average_precision_sums_precision_at_ranks [1; 2] {[3]})
    as (v & Hv & _ & Hzero).
  rewrite Hv. f_equal. apply Hzero. reflexivity.
Defined.

End EvaluateFacts.

(** * Further properties *)

(** ** What [merge] keeps *)

Section MergeInvariants.
Context {S : Type} `{PyNum S}.
#[local] Abbreviation posting := (@posting S).

(** Induction along the rounds of [merge]: the two ways the loops end and
    the three ways a round goes on. *)
Lemma merge_loop_rounds (P : list posting → list posting → list posting → list posting → Prop) :
  (∀ rest2 union, P [] rest2 union union) →
  (∀ rest1 union, P rest1 [] union union) →
  (∀ p1 p2 rest1 rest2 union out,
     p2.1 < p1.1 →
     P (p1 :: rest1) rest2 (union ++ [p2]) out →
     P (p1 :: rest1) (p2 :: rest2) union out) →
  (∀ p1 p2 rest1 rest2 union out,
     p2.1 = p1.1 →
     P rest1 (p2 :: rest2) (union ++ [(p2.1, nadd p1.2 p2.2)]) out →
     P (p1 :: rest1) (p2 :: rest2) union out) →
  (∀ p1 p2 rest1 rest2 union out,
     p1.1 < p2.1 →
     P rest1 (p2 :: rest2) (union ++ [p1]) out →
     P (p1 :: rest1) (p2 :: rest2) union out) →
  ∀ rest1 rest2 union, P rest1 rest2 union (merge_loop rest1 rest2 union).
Proof.
  intros Hend1 Hend2 Hcopy Hequal Hkeep rest1 rest2.
  remember (length rest1 + length rest2)%nat as n eqn:Hn.
  revert rest1 rest2 Hn.
  induction n as [n IH] using lt_wf_ind; intros rest1 rest2 Hn union.
  destruct rest1 as [|p1 rest1]; [apply Hend1|].
  destruct rest2 as [|p2 rest2]; [rewrite merge_loop_nil_r; apply Hend2|].
  simpl in Hn.
  destruct (Z.lt_trichotomy p2.1 p1.1) as [Hlt|[Heq|Hgt]].
  - rewrite merge_loop_copy by done. apply Hcopy; [done|].
    apply (IH (length (p1 :: rest1) + length rest2)%nat); simpl; lia.
  - rewrite merge_loop_equal by done. apply Hequal; [done|].
    apply (IH (length rest1 + length (p2 :: rest2))%nat); simpl; lia.
  - rewrite merge_loop_keep by done. apply Hkeep; [done|].
    apply (IH (length rest1 + length (p2 :: rest2))%nat); simpl; lia.
Qed.



Lemma sorted_le_head (x y : Z) (l : list Z) :
  StronglySorted Z.le (x :: l) → y ∈ l → x ≤ y.
Proof.
  rewrite StronglySorted_cons, Forall_forall. intros [Hall _] Hy. by apply Hall.
Qed.

Lemma sorted_le_tail (x : Z) (l : list Z) :
  StronglySorted Z.le (x :: l) → StronglySorted Z.le l.
Proof. rewrite StronglySorted_cons. by intros [_ ?]. Qed.

Lemma sorted_le_snoc (l : list Z) (x : Z) :
  StronglySorted Z.le l → (∀ a, a ∈ l → a ≤ x) → StronglySorted Z.le (l ++ [x]).
Proof.
  intros Hl Hle. apply StronglySorted_app_2; [|done|repeat constructor].
  intros a y Ha Hy. apply list_elem_of_singleton in Hy as ->. by apply Hle.
Qed.

Lemma merge_loop_sorted (rest1 rest2 union : list posting) :
  StronglySorted Z.le rest1.*1 → StronglySorted Z.le rest2.*1 →
  StronglySorted Z.le union.*1 →
  (∀ a x, a ∈ union.*1 → x ∈ rest1.*1 ++ rest2.*1 → a ≤ x) →
  StronglySorted Z.le (merge_loop rest1 rest2 union).*1.
Proof.
  apply (merge_loop_rounds (λ rest1 rest2 union out,
    StronglySorted Z.le rest1.*1 → StronglySorted Z.le rest2.*1 →
    StronglySorted Z.le union.*1 →
    (∀ a x, a ∈ union.*1 → x ∈ rest1.*1 ++ rest2.*1 → a ≤ x) →
    StronglySorted Z.le out.*1)); clear rest1 rest2 union.
  - done.
  - done.
  - intros p1 p2 r1 r2 u out Hlt IH Hs1 Hs2 Hu Hb.
    rewrite fmap_cons in Hs1, Hs2.
    apply IH.
    + by rewrite fmap_cons.
    + by apply sorted_le_tail in Hs2.
    + rewrite fmap_app. apply sorted_le_snoc; [done|].
      intros a Ha. apply Hb; [done|].
      rewrite !fmap_cons, elem_of_app, !elem_of_cons. auto.
    + intros a x Ha Hx.
      rewrite fmap_app in Ha. apply elem_of_app in Ha as [Ha|Ha].
      * apply Hb; [done|].
        rewrite !fmap_cons, elem_of_app, !elem_of_cons in *. tauto.
      * apply list_elem_of_singleton in Ha as ->.
        rewrite fmap_cons, elem_of_app, elem_of_cons in Hx.
        destruct Hx as [[->|Hx]|Hx].
        -- lia.
        -- pose proof (sorted_le_head _ _ _ Hs1 Hx). lia.
        -- by apply (sorted_le_head _ _ _ Hs2).
  - intros p1 p2 r1 r2 u out Heq IH Hs1 Hs2 Hu Hb.
    pose proof Hs1 as Hs1'. rewrite fmap_cons in Hs1', Hs2.
    apply IH.
    + by apply sorted_le_tail in Hs1'.
    + by rewrite fmap_cons.
    + rewrite fmap_app. apply sorted_le_snoc; [done|].
      intros a Ha. apply Hb; [done|].
      rewrite !fmap_cons, elem_of_app, !elem_of_cons. auto.
    + intros a x Ha Hx.
      rewrite fmap_app in Ha. apply elem_of_app in Ha as [Ha|Ha].
      * apply Hb; [done|].
        rewrite !fmap_cons, elem_of_app, !elem_of_cons in *. tauto.
      * apply list_elem_of_singleton in Ha as ->. cbn [fst].
        rewrite fmap_cons, elem_of_app, elem_of_cons in Hx.
        destruct Hx as [Hx|[->|Hx]].
        -- pose proof (sorted_le_head _ _ _ Hs1' Hx). lia.
        -- lia.
        -- by apply (sorted_le_head _ _ _ Hs2).
  - intros p1 p2 r1 r2 u out Hgt IH Hs1 Hs2 Hu Hb.
    pose proof Hs1 as Hs1'. rewrite fmap_cons in Hs1', Hs2.
    apply IH.
    + by apply sorted_le_tail in Hs1'.
    + by rewrite fmap_cons.
    + rewrite fmap_app. apply sorted_le_snoc; [done|].
      intros a Ha. apply Hb; [done|].
      rewrite !fmap_cons, elem_of_app, !elem_of_cons. auto.
    + intros a x Ha Hx.
      rewrite fmap_app in Ha. apply elem_of_app in Ha as [Ha|Ha].
      * apply Hb; [done|].
        rewrite !fmap_cons, elem_of_app, !elem_of_cons in *. tauto.
      * apply list_elem_of_singleton in Ha as ->.
        rewrite fmap_cons, elem_of_app, elem_of_cons in Hx.
        destruct Hx as [Hx|[->|Hx]].
        -- by apply (sorted_le_head _ _ _ Hs1').
        -- lia.
        -- pose proof (sorted_le_head _ _ _ Hs2 Hx). lia.
Qed.

(** On two lists sorted by document id, repeated ids allowed, the result
    of [merge] is sorted by document id, repeated ids allowed. *)
Theorem merge_keeps_order (list1 list2 : list posting) :
  StronglySorted Z.le list1.*1 → StronglySorted Z.le list2.*1 →
  StronglySorted Z.le (merge list1 list2).*1.
Proof.
  intros Hs1 Hs2. apply merge_loop_sorted; [done|done|constructor|].
  intros a x Ha. by apply elem_of_nil in Ha.
Qed.

Lemma merge_loop_entries (rest1 rest2 union : list posting) (e : posting) :
  e ∈ merge_loop rest1 rest2 union →
  e ∈ union ∨ e ∈ rest1 ∨ e ∈ rest2
  ∨ ∃ p1 p2, p1 ∈ rest1 ∧ p2 ∈ rest2 ∧ p1.1 = p2.1 ∧ e = (p2.1, nadd p1.2 p2.2).
Proof.
  apply (merge_loop_rounds (λ rest1 rest2 union out,
    e ∈ out →
    e ∈ union ∨ e ∈ rest1 ∨ e ∈ rest2
    ∨ ∃ p1 p2, p1 ∈ rest1 ∧ p2 ∈ rest2 ∧ p1.1 = p2.1
               ∧ e = (p2.1, nadd p1.2 p2.2))); clear rest1 rest2 union.
  - naive_solver.
  - naive_solver.
  - intros p1 p2 r1 r2 u out _ IH Hin.
    destruct (IH Hin) as [Hu|[H1|[H2|(q1 & q2 & Hq1 & Hq2 & Hid & ->)]]].
    + apply elem_of_app in Hu as [Hu| ->%list_elem_of_singleton]; [by left|].
      right; right; left. by left.
    + by right; left.
    + right; right; left. by right.
    + right; right; right. exists q1, q2. repeat split; [done|by right|done].
  - intros p1 p2 r1 r2 u out Heq IH Hin.
    destruct (IH Hin) as [Hu|[H1|[H2|(q1 & q2 & Hq1 & Hq2 & Hid & ->)]]].
    + apply elem_of_app in Hu as [Hu| ->%list_elem_of_singleton]; [by left|].
      right; right; right. exists p1, p2. repeat split; [by left|by left|done].
    + right; left. by right.
    + by right; right; left.
    + right; right; right. exists q1, q2. repeat split; [by right|done|done].
  - intros p1 p2 r1 r2 u out _ IH Hin.
    destruct (IH Hin) as [Hu|[H1|[H2|(q1 & q2 & Hq1 & Hq2 & Hid & ->)]]].
    + apply elem_of_app in Hu as [Hu| ->%list_elem_of_singleton]; [by left|].
      right; left. by left.
    + right; left. by right.
    + by right; right; left.
    + right; right; right. exists q1, q2. repeat split; [by right|done|done].
Qed.

(** [merge] invents nothing: an entry of the result is an entry of
    [list1], an entry of [list2], or carries the id shared by an entry of
    each with the sum of their two scores. *)
Theorem merge_entries_come_from_operands (list1 list2 : list posting) (e : posting) :
  e ∈ merge list1 list2 →
  e ∈ list1 ∨ e ∈ list2
  ∨ ∃ p1 p2, p1 ∈ list1 ∧ p2 ∈ list2 ∧ p1.1 = p2.1 ∧ e = (p2.1, nadd p1.2 p2.2).
Proof.
  intros Hin. apply merge_loop_entries in Hin as [Hnil|Hin]; [|done].
  by apply elem_of_nil in Hnil.
Qed.

Lemma merge_ids (list1 list2 : list posting) (id : Z) :
  id ∈ (merge list1 list2).*1 → id ∈ list1.*1 ∨ id ∈ list2.*1.
Proof.
  intros (e & -> & He)%list_elem_of_fmap.
  apply merge_loop_entries in He
    as [Hnil|[H1|[H2|(q1 & q2 & Hq1 & Hq2 & Hid & ->)]]].
  - by apply elem_of_nil in Hnil.
  - left. by apply list_elem_of_fmap_2.
  - right. by apply list_elem_of_fmap_2.
  - right. simpl. by apply list_elem_of_fmap_2.
Qed.

End MergeInvariants.


Lemma merge_keeps_order_witness :
  StronglySorted Z.le [(1, 2%float); (1, 3%float); (4, 1%float)].*1
  ∧ StronglySorted Z.le [(1, 5%float); (2, 1%float)].*1
  ∧ StronglySorted Z.le
      (merge (H := Float64.float_num Float64.log2_series)
         [(1, 2%float); (1, 3%float); (4, 1%float)] [(1, 5%float); (2, 1%float)]).*1.
Proof.
  assert (StronglySorted Z.le [(1, 2%float); (1, 3%float); (4, 1%float)].*1) as Hs1.
  { simpl. repeat constructor; lia. }
  assert (StronglySorted Z.le [(1, 5%float); (2, 1%float)].*1) as Hs2.
  { simpl. repeat constructor; lia. }
  split; [exact Hs1|]. split; [exact Hs2|].
  exact (merge_keeps_order (H := Float64.float_num Float64.log2_series) _ _ Hs1 Hs2).
Defined.

Lemma merge_entries_come_from_operands_witness :
  (1, 7%float) ∈ merge (H := Float64.float_num Float64.log2_series)
                   [(1, 2%float); (5, 3%float)] [(1, 5%float); (2, 1%float)]
  ∧ ((1, 7%float) ∈ [(1, 2%float); (5, 3%float)]
     ∨ (1, 7%float) ∈ [(1, 5%float); (2, 1%float)]
     ∨ ∃ p1 p2 : Z * float,
         p1 ∈ [(1, 2%float); (5, 3%float)] ∧ p2 ∈ [(1, 5%float); (2, 1%float)]
         ∧ p1.1 = p2.1 ∧ (1, 7%float) = (p2.1, PrimFloat.add p1.2 p2.2)).
Proof.
  assert ((1, 7%float) ∈ merge (H := Float64.float_num Float64.log2_series)
                           [(1, 2%float); (5, 3%float)] [(1, 5%float); (2, 1%float)])
    as Hin.
  { replace (merge (H := Float64.float_num Float64.log2_series)
               [(1, 2%float); (5, 3%float)] [(1, 5%float); (2, 1%float)])
      with [(1, 7%float); (1, 5%float); (2, 1%float)]
      by (vm_compute; reflexivity).
    left. }
  split; [exact Hin|].
  exact (merge_entries_come_from_operands
           (H := Float64.float_num Float64.log2_series) _ _ _ Hin).
Defined.

(** ** What [process_query] returns *)

Section QueryInvariants.
Context {S : Type} `{PyNum S}.
#[local] Abbreviation posting := (@posting S).

Lemma insert_by_score_perm (x : posting) (l : list posting) :
  insert_by_score x l ≡ₚ x :: l.
Proof.
  induction l as [|y l IH]; simpl; [done|].
  destruct (nlt x.2 y.2); [|done].
  rewrite IH. apply Permutation_swap.
Qed.

(** The ranking is a rearrangement: it drops and repeats nothing. *)
Lemma sorted_by_score_perm (l : list posting) : sorted_by_score l ≡ₚ l.
Proof.
  induction l as [|x l IH]; simpl; [done|].
  by rewrite insert_by_score_perm, IH.
Qed.

Lemma fold_keywords_ids (inverted_lists : gmap string (list posting))
    (all keys : list string) (union : list posting) :
  (∀ key, key ∈ keys → key ∈ all) →
  (∀ id, id ∈ union.*1 →
     ∃ key l, key ∈ all ∧ inverted_lists !! key = Some l ∧ id ∈ l.*1) →
  ∀ id, id ∈ (foldl (fold_keyword inverted_lists) union keys).*1 →
    ∃ key l, key ∈ all ∧ inverted_lists !! key = Some l ∧ id ∈ l.*1.
Proof.
  revert union.
  induction keys as [|key keys IH]; intros union Hsub Hunion; [exact Hunion|].
  simpl. apply IH.
  - intros k Hk. apply Hsub. by right.
  - intros id. unfold fold_keyword.
    destruct (inverted_lists !! key) as [l|] eqn:Hl.
    + intros [Hid|Hid]%merge_ids; [by apply Hunion|].
      exists key, l. split; [apply Hsub; by left|done].
    + intros Hid. by apply elem_of_nil in Hid.
Qed.

Lemma process_query_ids
    (inverted_lists : gmap string (list posting)) (query : string) (ids : list Z) :
  process_query inverted_lists query = Ok ids →
  ∀ id, id ∈ ids →
    ∃ key l, key ∈ Str.re_split query
             ∧ inverted_lists !! key = Some l ∧ id ∈ l.*1.
Proof.
  unfold process_query.
  destruct (Str.re_split query) as [|k0 ks] eqn:Hks; [done|].
  intros Hrun. apply bind_Ok_inv in Hrun as (first & Hfirst & Hrun).
  rewrite py_get_head in Hfirst. injection Hfirst as <-.
  injection Hrun as <-. intros id Hid.
  change (map fst ?l) with (l.*1) in Hid.
  rewrite sorted_by_score_perm in Hid.
  revert id Hid.
  apply (fold_keywords_ids inverted_lists (k0 :: ks) (k0 :: ks)); [auto|].
  intros id Hid. destruct (inverted_lists !! k0) as [l|] eqn:Hl.
  - exists k0, l. split; [by left|done].
  - by apply elem_of_nil in Hid.
Qed.


(** Every document id that [process_query] returns stands in the inverted
    list of one of the keywords of the query. *)
Theorem process_query_ids_come_from_keywords
    (inverted_lists : gmap string (list posting)) (query : string) (ids : list Z) :
  process_query inverted_lists query = Ok ids →
  ∀ id, id ∈ ids →
    ∃ key l, key ∈ Str.re_split query
             ∧ inverted_lists !! key = Some l ∧ id ∈ l.*1.
Proof. apply process_query_ids. Qed.

End QueryInvariants.

Lemma process_query_ids_come_from_keywords_witness :
  process_query (H := Float64.float_num Float64.log2_series) doctest_index "foo bar"
    = Ok [3; 1; 2; 1; 1]
  ∧ 2 ∈ [3; 1; 2; 1; 1]
  ∧ ∃ key l, key ∈ Str.re_split "foo bar"
             ∧ doctest_index !! key = Some l ∧ 2 ∈ l.*1.
Proof.
  assert (process_query (H := Float64.float_num Float64.log2_series)
            doctest_index "foo bar" = Ok [3; 1; 2; 1; 1]) as Hrun
    by (vm_compute; reflexivity).
  assert (2 ∈ [3; 1; 2; 1; 1]) as Hin by (do 2 right; left).
  split; [exact Hrun|]. split; [exact Hin|].
  exact (process_query_ids_come_from_keywords
           (H := Float64.float_num Float64.log2_series) _ _ _ Hrun 2 Hin).
Defined.

(** ** What the first pass stores *)

Lemma cons_snoc {A} (x : A) (l : list A) : ∃ l' y, x :: l = l' ++ [y].
Proof.
  revert x. induction l as [|z l IH]; intros x.
  - by exists [], x.
  - destruct (IH z) as (l' & y & ->). by exists (x :: l'), y.
Qed.

Lemma occurrences_snoc (word : string) (pieces : list string) (piece : string) :
  occurrences word (words_of_pieces (pieces ++ [piece]))
  = occurrences word (words_of_pieces pieces)
    + (if decide (normalise piece = word ∧ word ≠ EmptyString) then 1 else 0).
Proof.
  unfold occurrences, words_of_pieces.
  rewrite fmap_app, !filter_app, length_app, Nat2Z.inj_add. f_equal.
  rewrite fmap_cons, fmap_nil, filter_cons, filter_nil.
  destruct (decide (normalise piece ≠ EmptyString)) as [Hne|He].
  - rewrite filter_cons, filter_nil.
    destruct (decide (normalise piece = word)) as [Hw|Hw].
    + rewrite decide_True; [done|]. split; [done|]. by rewrite <- Hw.
    + rewrite decide_False; [done|]. by intros [? _].
  - rewrite filter_nil. rewrite decide_False; [done|].
    intros [Heq Hw]. apply He. by rewrite Heq.
Qed.

Lemma occurrences_nonneg (word : string) (words : list string) :
  0 ≤ occurrences word words.
Proof. unfold occurrences. lia. Qed.

Lemma postings_from_app (word : string) (doc_id : Z) (lines1 lines2 : list string) :
  postings_from word doc_id (lines1 ++ lines2)
  = postings_from word doc_id lines1
    ++ postings_from word (doc_id + Z.of_nat (length lines1)) lines2.
Proof.
  revert doc_id. induction lines1 as [|line lines1 IH]; intros doc_id; simpl.
  - by rewrite Z.add_0_r.
  - rewrite IH, <- app_assoc. do 3 f_equal. lia.
Qed.

Lemma postings_from_range (word : string) (doc_id : Z) (lines : list string) :
  Forall (λ p, doc_id ≤ p.1 < doc_id + Z.of_nat (length lines) ∧ 1 ≤ p.2)
         (postings_from word doc_id lines).
Proof.
  revert doc_id. induction lines as [|line lines IH]; intros doc_id; [constructor|].
  cbn [postings_from length]. apply Forall_app. split.
  - unfold posting_for.
    pose proof (occurrences_nonneg word (words_of_line line)).
    destruct (Z.eqb_spec (occurrences word (words_of_line line)) 0); [constructor|].
    apply Forall_singleton. simpl. lia.
  - eapply Forall_impl; [apply IH|]. simpl. lia.
Qed.

(** One round of the loop over the pieces of the line of document
    [doc_id]: [base] are the postings of the earlier documents and
    [pieces] the pieces of the line read so far. *)
Lemma add_word_counts (doc_id : Z) (lists : gmap string (list (Z * Z)))
    (base : string → list (Z * Z)) (pieces : list string) (piece : string) :
  (∀ word, Forall (λ p, p.1 < doc_id) (base word)) →
  (∀ word, lists !! word
           = list_or_absent
               (base word
                ++ posting_for word doc_id (occurrences word (words_of_pieces pieces)))) →
  ∃ lists', add_word doc_id lists piece = Ok lists'
    ∧ ∀ word, lists' !! word
              = list_or_absent
                  (base word
                   ++ posting_for word doc_id
                        (occurrences word (words_of_pieces (pieces ++ [piece])))).
Proof.
  intros Hbase Hlists. unfold add_word. fold (normalise piece).
  destruct (String.length (normalise piece) =? 0)%nat eqn:Hlen.
  { exists lists. split; [done|]. intros word.
    rewrite occurrences_snoc, decide_False, Z.add_0_r; [apply Hlists|].
    intros [Heq Hw]. apply Hw. rewrite <- Heq.
    apply Nat.eqb_eq in Hlen. by destruct (normalise piece). }
  assert (normalise piece ≠ EmptyString) as Hne.
  { intros Heq. by rewrite Heq in Hlen. }
  set (w0 := normalise piece) in *.
  assert (∀ l, (∀ word, word ≠ w0 →
                  <[w0 := l]> lists !! word
                  = list_or_absent
                      (base word
                       ++ posting_for word doc_id
                            (occurrences word (words_of_pieces (pieces ++ [piece])))))) as Hother.
  { intros l word Hw. rewrite lookup_insert_ne by done.
    rewrite occurrences_snoc, decide_False; [rewrite Z.add_0_r; apply Hlists|].
    intros [Heq _]. by apply Hw. }
  assert (occurrences w0 (words_of_pieces (pieces ++ [piece]))
          = occurrences w0 (words_of_pieces pieces) + 1) as Hcount.
  { by rewrite occurrences_snoc, decide_True. }
  pose proof (occurrences_nonneg w0 (words_of_pieces pieces)) as Hnonneg.
  pose proof (Hlists w0) as Hw0. unfold posting_for in Hw0.
  destruct (Z.eqb_spec (occurrences w0 (words_of_pieces pieces)) 0) as [Hzero|Hpos].
  - (* first occurrence in this line *)
    rewrite app_nil_r in Hw0.
    destruct (base w0) as [|q0 b0] eqn:Hb.
    + rewrite Hw0. simpl. eexists. split; [reflexivity|]. intros word.
      destruct (decide (word = w0)) as [->|Hw]; [|by apply Hother].
      rewrite lookup_insert_eq, Hcount, Hzero, Hb. done.
    + destruct (cons_snoc q0 b0) as (b' & q & Hsnoc).
      rewrite Hw0. simpl. rewrite Hsnoc, py_get_last. simpl.
      pose proof (Hbase w0) as Hlt. rewrite Hb, Hsnoc in Hlt.
      apply Forall_app in Hlt as [_ Hlt]. rewrite Forall_singleton in Hlt.
      destruct (Z.eqb_spec q.1 doc_id) as [Heq|_]; [lia|]. simpl.
      eexists. split; [reflexivity|]. intros word.
      destruct (decide (word = w0)) as [->|Hw]; [|by apply Hother].
      by rewrite lookup_insert_eq, Hcount, Hzero, Hb.
  - (* a further occurrence in this line *)
    assert (list_or_absent (base w0 ++ [(doc_id, occurrences w0 (words_of_pieces pieces))])
            = Some (base w0 ++ [(doc_id, occurrences w0 (words_of_pieces pieces))]))
      as Hsome by (by destruct (base w0)).
    rewrite Hsome in Hw0. rewrite Hw0. simpl. rewrite py_get_last. simpl.
    rewrite Z.eqb_refl. simpl.
    eexists. split; [reflexivity|]. intros word.
    destruct (decide (word = w0)) as [->|Hw]; [|by apply Hother].
    rewrite lookup_insert_eq, Hcount. unfold posting_for.
    destruct (Z.eqb_spec (occurrences w0 (words_of_pieces pieces) + 1) 0); [lia|].
    rewrite length_app. simpl.
    replace (pred (length (base w0) + 1)) with (length (base w0) + 0)%nat by lia.
    rewrite insert_app_r. simpl. by destruct (base w0).
Qed.

Lemma add_words_counts (doc_id : Z) (base : string → list (Z * Z))
    (rest pieces : list string) (lists : gmap string (list (Z * Z))) :
  (∀ word, Forall (λ p, p.1 < doc_id) (base word)) →
  (∀ word, lists !! word
           = list_or_absent
               (base word
                ++ posting_for word doc_id (occurrences word (words_of_pieces pieces)))) →
  ∃ lists', for_each (add_word doc_id) rest lists = Ok lists'
    ∧ ∀ word, lists' !! word
              = list_or_absent
                  (base word
                   ++ posting_for word doc_id
                        (occurrences word (words_of_pieces (pieces ++ rest)))).
Proof.
  intros Hbase. revert pieces lists.
  induction rest as [|piece rest IH]; intros pieces lists Hlists.
  - exists lists. by rewrite app_nil_r.
  - destruct (add_word_counts doc_id lists base pieces piece Hbase Hlists)
      as (lists1 & Hrun & Hlists1).
    destruct (IH (pieces ++ [piece]) lists1 Hlists1) as (lists' & Hrest & Hlists').
    exists lists'. simpl. rewrite Hrun. simpl. split; [done|].
    intros word. rewrite Hlists'. by rewrite <- app_assoc.
Qed.

Lemma ingest_line_counts (st st' : tf_index) (earlier : list string) (line : string) :
  last_doc_id st = Z.of_nat (length earlier) →
  length (tf_docs st) = length earlier →
  (∀ word, tf_lists st !! word = list_or_absent (postings_from word 1 earlier)) →
  ingest_line st line = Ok st' →
  last_doc_id st' = Z.of_nat (length (earlier ++ [line]))
  ∧ length (tf_docs st') = length (earlier ++ [line])
  ∧ ∀ word, tf_lists st' !! word
            = list_or_absent (postings_from word 1 (earlier ++ [line])).
Proof.
  intros Hid Hdocs Hlists. unfold ingest_line. cbv zeta.
  destruct (Str.split_tab 2 (Str.strip line)) as [|t [|d [|r [|x parts]]]];
    try discriminate.
  destruct (add_words_counts (last_doc_id st + 1)
              (λ word, postings_from word 1 earlier)
              (Str.re_split (Str.strip line)) [] (tf_lists st))
    as (lists' & Hrun & Hlists').
  { intros word. eapply Forall_impl; [apply postings_from_range|].
    simpl. lia. }
  { intros word. unfold words_of_pieces, occurrences, posting_for. simpl.
    rewrite app_nil_r. apply Hlists. }
  rewrite Hrun. simpl. intros [= <-]. simpl.
  rewrite !length_app. simpl. split; [lia|]. split; [lia|].
  intros word. rewrite Hlists', postings_from_app. simpl.
  rewrite app_nil_r. unfold words_of_line. by rewrite Hid, Z.add_comm.
Qed.

Lemma first_pass_from_counts (lines earlier : list string) (st st' : tf_index) :
  last_doc_id st = Z.of_nat (length earlier) →
  length (tf_docs st) = length earlier →
  (∀ word, tf_lists st !! word = list_or_absent (postings_from word 1 earlier)) →
  for_each ingest_line lines st = Ok st' →
  last_doc_id st' = Z.of_nat (length (earlier ++ lines))
  ∧ length (tf_docs st') = length (earlier ++ lines)
  ∧ ∀ word, tf_lists st' !! word
            = list_or_absent (postings_from word 1 (earlier ++ lines)).
Proof.
  revert earlier st.
  induction lines as [|line lines IH]; intros earlier st Hid Hdocs Hlists Hrun.
  - injection Hrun as <-. by rewrite app_nil_r.
  - simpl in Hrun. apply bind_Ok_inv in Hrun as (st1 & Hline & Hrest).
    destruct (ingest_line_counts st st1 earlier line Hid Hdocs Hlists Hline)
      as (Hid1 & Hdocs1 & Hlists1).
    replace (earlier ++ line :: lines) with ((earlier ++ [line]) ++ lines)
      by (by rewrite <- app_assoc).
    by apply (IH (earlier ++ [line]) st1).
Qed.

(** After the first pass, the inverted list of a word holds one posting for
    each line that contains the word, in file order: the 1-based number of
    the line and the number of times the word occurs among the pieces of the
    line, compared in lower case.  A word that occurs in no line has no
    list.  The documents stored and the last id given are as many as the
    lines. *)
Theorem first_pass_counts_occurrences (lines : list string) (st : tf_index) :
  first_pass lines = Ok st →
  (∀ word, tf_lists st !! word = list_or_absent (postings_from word 1 lines))
  ∧ length (tf_docs st) = length lines
  ∧ last_doc_id st = Z.of_nat (length lines).
Proof.
  intros Hrun.
  destruct (first_pass_from_counts lines [] empty_tf_index st) as (Hid & Hdocs & Hlists);
    try done.
Qed.

Lemma first_pass_counts_occurrences_witness :
  ∃ st, first_pass example_corpus = Ok st
    ∧ tf_lists st !! "short" = Some [(3, 1); (4, 2)]
    ∧ list_or_absent (postings_from "short" 1 example_corpus) = Some [(3, 1); (4, 2)]
    ∧ (∀ word, tf_lists st !! word
               = list_or_absent (postings_from word 1 example_corpus))
    ∧ length (tf_docs st) = length example_corpus
    ∧ last_doc_id st = Z.of_nat (length example_corpus).
Proof.
  assert (∃ st, first_pass example_corpus = Ok st
                ∧ tf_lists st !! "short" = Some [(3, 1); (4, 2)])
    as (st & Hrun & Hshort).
  { eexists. split; vm_compute; reflexivity. }
  exists st. split; [exact Hrun|]. split; [exact Hshort|].
  split; [vm_compute; reflexivity|].
  exact (first_pass_counts_occurrences example_corpus st Hrun).
Defined.

(** ** The words of the index *)

Lemma lower_char_of_letter (c : ascii) :
  Str.is_alpha c = true → is_lower (Str.lower_char c) = true.
Proof.
  destruct c as [[] [] [] [] [] [] [] []]; vm_compute; intros; congruence.
Qed.

Lemma lower_letter_not_space (c : ascii) :
  is_lower c = true → Str.is_space c = false.
Proof.
  destruct c as [[] [] [] [] [] [] [] []]; vm_compute; intros; congruence.
Qed.

Lemma upper_letter_is_letter (c : ascii) :
  is_upper c = true → Str.is_alpha c = true ∧ is_lower c = false.
Proof.
  destruct c as [[] [] [] [] [] [] [] []]; vm_compute; intros; split; congruence.
Qed.

Lemma chars_append (s1 s2 : string) : chars (s1 +:+ s2) = chars s1 ++ chars s2.
Proof. induction s1 as [|c s1 IH]; simpl; [done|]. unfold chars in *. simpl. by f_equal. Qed.

(** The pieces [re.split] cuts consist of letters. *)
Lemma re_split_from_letters (s piece : string) (in_sep : bool) :
  Forall (λ c, Str.is_alpha c = true) (chars piece) →
  Forall (λ p, Forall (λ c, Str.is_alpha c = true) (chars p))
         (Str.re_split_from s piece in_sep).
Proof.
  revert piece in_sep. induction s as [|c s IH]; intros piece in_sep Hpiece; simpl.
  - by constructor.
  - destruct (Str.is_alpha c) eqn:Hc.
    + apply IH. rewrite chars_append. apply Forall_app. split; [done|].
      by repeat constructor.
    + destruct in_sep; [by apply IH|].
      constructor; [done|]. apply IH. constructor.
Qed.

(** Every letter of the string stands in one of the pieces. *)
Lemma re_split_from_keeps_letters (s piece : string) (in_sep : bool) (c : ascii) :
  c ∈ chars piece ∨ (c ∈ chars s ∧ Str.is_alpha c = true) →
  ∃ p, p ∈ Str.re_split_from s piece in_sep ∧ c ∈ chars p.
Proof.
  revert piece in_sep. induction s as [|a s IH]; intros piece in_sep Hc; simpl.
  - destruct Hc as [Hc|[Hc _]]; [|by apply elem_of_nil in Hc].
    exists piece. split; [by left|done].
  - assert (c ∈ chars piece ∨ (c = a ∧ Str.is_alpha c = true)
            ∨ (c ∈ chars s ∧ Str.is_alpha c = true)) as Hcases.
    { destruct Hc as [Hc|[Hc Hal]]; [by left|].
      unfold chars in Hc. simpl in Hc. apply elem_of_cons in Hc as [->|Hc]; auto. }
    clear Hc. destruct (Str.is_alpha a) eqn:Ha.
    + apply IH. rewrite chars_append.
      destruct Hcases as [Hc|[[-> _]|Hc]]; [left|left|by right].
      * apply elem_of_app. by left.
      * apply elem_of_app. right. by left.
    + destruct Hcases as [Hc|[[-> Hal]|Hc]]; [|congruence|].
      * destruct in_sep.
        -- apply IH. by left.
        -- exists piece. split; [by left|done].
      * destruct in_sep.
        -- apply IH. by right.
        -- destruct (IH EmptyString true (or_intror Hc)) as (p & Hp & Hcp).
           exists p. split; [by right|done].
Qed.

(** A separator at the very end of the string leaves an empty last piece. *)
Lemma re_split_from_trailing_separator (s piece : string) (in_sep : bool) (c : ascii) :
  Str.is_alpha c = false → (in_sep = true → piece = EmptyString) →
  EmptyString ∈ Str.re_split_from (s +:+ String c EmptyString) piece in_sep.
Proof.
  intros Hc. revert piece in_sep.
  induction s as [|a s IH]; intros piece in_sep Hinv; simpl.
  - rewrite Hc. destruct in_sep.
    + rewrite Hinv by done. by left.
    + right. by left.
  - destruct (Str.is_alpha a).
    + by apply IH.
    + destruct in_sep; [by apply IH|]. right. by apply IH.
Qed.

Lemma lstrip_no_space (s : string) :
  Forall (λ c, Str.is_space c = false) (chars s) → Str.lstrip s = s.
Proof.
  destruct s as [|c s]; [done|]. unfold chars. simpl.
  intros [Hc _]%Forall_cons. by rewrite Hc.
Qed.

Lemma rstrip_no_space (s : string) :
  Forall (λ c, Str.is_space c = false) (chars s) → Str.rstrip s = s.
Proof.
  induction s as [|c s IH]; [done|]. unfold chars. simpl.
  intros [Hc Hs]%Forall_cons. rewrite (IH Hs), Hc. by destruct s.
Qed.

Lemma chars_lower (s : string) : chars (Str.lower s) = Str.lower_char <$> chars s.
Proof. induction s as [|c s IH]; [done|]. unfold chars in *. simpl. by f_equal. Qed.

(** A piece of letters, as it is looked up (line 78): its letters in lower
    case, nothing stripped. *)
Lemma normalise_letters (piece : string) :
  Forall (λ c, Str.is_alpha c = true) (chars piece) →
  normalise piece = Str.lower piece
  ∧ Forall (λ c, is_lower c = true) (chars (normalise piece)).
Proof.
  intros Hletters.
  assert (Forall (λ c, is_lower c = true) (chars (Str.lower piece))) as Hlower.
  { rewrite chars_lower. apply Forall_fmap.
    eapply Forall_impl; [exact Hletters|]. intros c. apply lower_char_of_letter. }
  assert (Forall (λ c, Str.is_space c = false) (chars (Str.lower piece))) as Hnospace.
  { eapply Forall_impl; [exact Hlower|]. intros c. apply lower_letter_not_space. }
  assert (normalise piece = Str.lower piece) as Heq.
  { unfold normalise, Str.strip.
    by rewrite (lstrip_no_space _ Hnospace), (rstrip_no_space _ Hnospace). }
  by rewrite Heq.
Qed.

Lemma postings_from_nonempty (word : string) (doc_id : Z) (lines : list string) :
  postings_from word doc_id lines ≠ [] →
  ∃ line, line ∈ lines ∧ word ∈ words_of_line line.
Proof.
  revert doc_id. induction lines as [|line lines IH]; intros doc_id; [done|].
  simpl. unfold posting_for.
  destruct (Z.eqb_spec (occurrences word (words_of_line line)) 0) as [Hzero|Hpos].
  - simpl. intros Hne. destruct (IH _ Hne) as (line' & Hin & Hw).
    exists line'. split; [by right|done].
  - intros _. exists line. split; [by left|].
    unfold occurrences in Hpos.
    destruct (filter (λ w, w = word) (words_of_line line)) as [|w ws] eqn:Hf; [done|].
    assert (w ∈ filter (λ w, w = word) (words_of_line line)) as Hw
      by (rewrite Hf; by left).
    apply list_elem_of_filter in Hw as [-> Hw]. done.
Qed.

Lemma words_of_line_shape (line word : string) :
  word ∈ words_of_line line →
  word ≠ EmptyString ∧ Forall (λ c, is_lower c = true) (chars word).
Proof.
  unfold words_of_line, words_of_pieces.
  intros [Hne Hw]%list_elem_of_filter. split; [done|].
  apply list_elem_of_fmap in Hw as (piece & -> & Hpiece).
  apply normalise_letters.
  assert (Forall (λ c, Str.is_alpha c = true) (chars EmptyString)) as Hnil
    by constructor.
  pose proof (re_split_from_letters (Str.strip line) EmptyString false Hnil) as Hall.
  rewrite Forall_forall in Hall. by apply Hall.
Qed.

Lemma first_pass_words_shape (lines : list string) (st : tf_index) (word : string) :
  first_pass lines = Ok st → is_Some (tf_lists st !! word) →
  word ≠ EmptyString ∧ Forall (λ c, is_lower c = true) (chars word).
Proof.
  intros Hrun [l Hl].
  destruct (first_pass_from_counts lines [] empty_tf_index st) as (_ & _ & Hlists);
    try done.
  rewrite Hlists in Hl. simpl in Hl.
  destruct (postings_from_nonempty word 1 lines) as (line & _ & Hw).
  { intros Hnil. by rewrite Hnil in Hl. }
  by apply (words_of_line_shape line).
Qed.

(** The words under which the first pass files documents are not empty and
    consist of the letters [a] to [z]. *)
Theorem first_pass_words_are_lower_case (lines : list string) (st : tf_index)
    (word : string) :
  first_pass lines = Ok st → is_Some (tf_lists st !! word) →
  word ≠ EmptyString ∧ Forall (λ c, is_lower c = true) (chars word).
Proof. apply first_pass_words_shape. Qed.

Lemma first_pass_words_are_lower_case_witness :
  ∃ st, first_pass capitalised_corpus = Ok st
    ∧ is_Some (tf_lists st !! "movie")
    ∧ "movie" ≠ EmptyString ∧ Forall (λ c, is_lower c = true) (chars "movie").
Proof.
  assert (∃ st, first_pass capitalised_corpus = Ok st
                ∧ is_Some (tf_lists st !! "movie")) as (st & Hrun & Hsome).
  { eexists. split; [vm_compute; reflexivity|]. vm_compute. by eexists. }
  exists st. split; [exact Hrun|]. split; [exact Hsome|].
  exact (first_pass_words_are_lower_case capitalised_corpus st "movie" Hrun Hsome).
Defined.

(** ** The built index *)

Lemma py_get_in_range {A} (l : list A) (i : Z) :
  0 ≤ i < Z.of_nat (length l) → ∃ x, py_get l i = Ok x.
Proof.
  intros Hi. unfold py_get.
  destruct (i <? 0) eqn:Hneg; [lia|].
  destruct (_ || _) eqn:Hrange.
  { apply orb_true_iff in Hrange as [?%Z.ltb_lt|?%Z.leb_le]; lia. }
  destruct (l !! Z.to_nat i) as [x|] eqn:Hx; [by exists x|].
  apply lookup_ge_None in Hx. lia.
Qed.

Section BuiltIndex.
Context {S : Type} `{PyNum S}.
#[local] Abbreviation posting := (@posting S).
#[local] Abbreviation index := (@index S).

Lemma second_pass_words (docs : list doc) (avdoclen k b : S)
    (lists : gmap string (list (Z * Z))) (scored : gmap string (list posting)) :
  second_pass docs avdoclen k b lists = Ok scored →
  ∀ word, doc_ids <$> scored !! word = doc_ids <$> lists !! word.
Proof.
  unfold second_pass. revert scored.
  apply (map_fold_weak_ind (λ (acc : result (gmap string (list posting))) lists,
           ∀ scored, acc = Ok scored →
             ∀ word, doc_ids <$> scored !! word = doc_ids <$> lists !! word)).
  - intros scored [= <-] word. by rewrite !lookup_empty.
  - intros w l lists0 acc Hfresh IH scored Hrun word.
    apply bind_Ok_inv in Hrun as (done_ & Hacc & Hrun).
    apply bind_Ok_inv in Hrun as (l1 & Hl1 & Hrun).
    apply bind_Ok_inv in Hrun as (l2 & Hl2 & Hrun).
    injection Hrun as <-.
    destruct (decide (w = word)) as [->|Hw].
    + rewrite !lookup_insert_eq. simpl. f_equal. unfold doc_ids.
      by rewrite (bm25_ids _ _ _ Hl2), (bm25tf_ids _ _ _ _ _ _ Hl1).
    + rewrite !lookup_insert_ne by done. by apply IH.
Qed.

Lemma build_from_file_inv (lines : list string) (b k : S) (idx : index) :
  build_from_file lines b k = Ok idx →
  ∃ st, first_pass lines = Ok st ∧ docs idx = tf_docs st
        ∧ ∀ word, doc_ids <$> inverted_lists idx !! word
                  = doc_ids <$> tf_lists st !! word.
Proof.
  unfold build_from_file. intros Hrun.
  apply bind_Ok_inv in Hrun as (st & Hfirst & Hrun).
  apply bind_Ok_inv in Hrun as (avdl & _ & Hrun).
  apply bind_Ok_inv in Hrun as (scored & Hsecond & Hrun).
  injection Hrun as <-. exists st. simpl. split; [done|]. split; [done|].
  by apply (second_pass_words _ _ _ _ _ _ Hsecond).
Qed.

Lemma built_index_lists
    (lines : list string) (b k : S) (idx : index) :
  build_from_file lines b k = Ok idx →
  (∀ word, doc_ids <$> inverted_lists idx !! word
           = doc_ids <$> list_or_absent (postings_from word 1 lines))
  ∧ length (docs idx) = length lines.
Proof.
  intros (st & Hfirst & Hdocs & Hwords)%build_from_file_inv.
  destruct (first_pass_from_counts lines [] empty_tf_index st) as (_ & Hlen & Hlists);
    try done.
  split; [|by rewrite Hdocs].
  intros word. by rewrite Hwords, Hlists.
Qed.

(** When [build_from_file] completes, the inverted list of a word holds, in
    increasing order, the 1-based numbers of exactly the lines that contain
    the word (compared in lower case); a word that occurs in no line has no
    list; and [docs] has one entry for each line. *)
Theorem built_index_lists_the_lines_with_the_word
    (lines : list string) (b k : S) (idx : index) :
  build_from_file lines b k = Ok idx →
  (∀ word, doc_ids <$> inverted_lists idx !! word
           = doc_ids <$> list_or_absent (postings_from word 1 lines))
  ∧ length (docs idx) = length lines.
Proof. apply built_index_lists. Qed.

Lemma built_index_ids (lines : list string) (b k : S) (idx : index)
    (word : string) (l : list posting) (id : Z) :
  build_from_file lines b k = Ok idx →
  inverted_lists idx !! word = Some l → id ∈ l.*1 →
  1 ≤ id ≤ Z.of_nat (length (docs idx)).
Proof.
  intros Hbuild Hl Hid.
  destruct (built_index_lists lines b k idx Hbuild)
    as [Hlists Hlen].
  specialize (Hlists word). unfold posting in *.
  rewrite Hl in Hlists.
  destruct (postings_from word 1 lines) as [|q qs] eqn:Hq; [done|].
  assert (l.*1 = (q :: qs).*1) as Hids by (by injection Hlists).
  rewrite Hids in Hid.
  apply list_elem_of_fmap in Hid as (p & -> & Hp).
  pose proof (postings_from_range word 1 lines) as Hrange.
  rewrite Hq, Forall_forall in Hrange. specialize (Hrange p Hp). lia.
Qed.

Lemma built_index_word (lines : list string) (b k : S) (idx : index) (word : string) :
  build_from_file lines b k = Ok idx →
  is_Some (inverted_lists idx !! word) →
  word ≠ EmptyString ∧ Forall (λ c, is_lower c = true) (chars word).
Proof.
  intros (st & Hfirst & _ & Hwords)%build_from_file_inv [l Hl].
  apply (first_pass_words_shape lines st word Hfirst).
  specialize (Hwords word). unfold posting in *. rewrite Hl in Hwords.
  destruct (tf_lists st !! word); [by eexists|done].
Qed.

(** On a built index a query with a capital letter finds nothing: the
    keyword with that letter is looked up as it is typed, and the index has
    lower-case words only. *)
Theorem capital_letter_in_query_finds_nothing
    (lines : list string) (b k : S) (idx : index) (query : string) (c : ascii) :
  build_from_file lines b k = Ok idx →
  c ∈ chars query → is_upper c = true →
  process_query (inverted_lists idx) query = Ok [].
Proof.
  intros Hbuild Hc Hupper.
  destruct (upper_letter_is_letter c Hupper) as [Hletter Hnotlower].
  destruct (re_split_from_keeps_letters query EmptyString false c) as (p & Hp & Hcp);
    [by right|].
  apply (process_query_unknown_keyword _ _ p); [done|].
  destruct (inverted_lists idx !! p) as [l|] eqn:Hl; [|done].
  destruct (built_index_word lines b k idx p Hbuild) as [_ Hlower]; [by eexists|].
  rewrite Forall_forall in Hlower. specialize (Hlower c Hcp). congruence.
Qed.

(** On a built index the empty query, a query that begins with a character
    that is no letter, and a query that ends with one find nothing: such a
    query has an empty keyword, which is no word of the index. *)
Theorem separator_at_the_edge_finds_nothing
    (lines : list string) (b k : S) (idx : index) (query : string) :
  build_from_file lines b k = Ok idx →
  query = EmptyString
  ∨ (∃ c rest, query = String c rest ∧ Str.is_alpha c = false)
  ∨ (∃ c start, query = (start +:+ String c EmptyString)%string
                ∧ Str.is_alpha c = false) →
  process_query (inverted_lists idx) query = Ok [].
Proof.
  intros Hbuild Hedge.
  apply (process_query_unknown_keyword _ _ EmptyString).
  - destruct Hedge as [->|[(c & rest & -> & Hc)|(c & start & -> & Hc)]].
    + by left.
    + unfold Str.re_split. simpl. rewrite Hc. by left.
    + by apply re_split_from_trailing_separator.
  - destruct (inverted_lists idx !! EmptyString) as [l|] eqn:Hl; [|done].
    by destruct (built_index_word lines b k idx EmptyString Hbuild) as [Hne _];
      [by eexists|].
Qed.



End BuiltIndex.

(** Every id of a built inverted list is the number of a stored document:
    [self.docs[doc_id - 1]] is that document. *)
Theorem built_postings_name_stored_documents {S : Type} `{PyNum S}
    (lines : list string) (b k : S) (idx : index) (word : string)
    (l : list posting) (id : Z) :
  build_from_file lines b k = Ok idx →
  inverted_lists idx !! word = Some l → id ∈ l.*1 →
  1 ≤ id ≤ Z.of_nat (length (docs idx)) ∧ returns (py_get (docs idx) (id - 1)).
Proof.
  intros Hbuild Hl Hid.
  pose proof (built_index_ids lines b k idx word l id Hbuild Hl Hid) as Hrange.
  split; [done|]. apply py_get_in_range. lia.
Qed.

(** ** When [build_from_file] fails *)

Lemma first_pass_short_line (lines : list string) (st : tf_index) (line : string) :
  tf_index_ok st → line ∈ lines →
  (Str.num_fields (Str.strip line) < 3)%nat →
  for_each ingest_line lines st = Raise ValueError.
Proof.
  intros Hok Hin Hshort. revert st Hok.
  induction lines as [|line0 lines IH]; intros st Hok; [by apply elem_of_nil in Hin|].
  simpl. pose proof (ingest_line_cases st line0 Hok) as Hcases.
  case_decide as Hfields.
  - destruct Hcases as (st1 & -> & Hok1 & _). simpl.
    apply elem_of_cons in Hin as [->|Hin]; [lia|]. by apply IH.
  - by rewrite Hcases.
Qed.

(** A line with fewer than three tab-separated fields anywhere in the file
    makes [build_from_file] raise [ValueError]; no index is built. *)
Theorem build_fails_on_short_line {S : Type} `{PyNum S}
    (lines : list string) (b k : S) (line : string) :
  line ∈ lines → (Str.num_fields (Str.strip line) < 3)%nat →
  build_from_file lines b k = Raise ValueError.
Proof.
  intros Hin Hshort. unfold build_from_file, first_pass.
  by rewrite (first_pass_short_line lines _ line empty_tf_index_ok Hin Hshort).
Qed.

(** [build_from_file] completes only on a file that has at least one line
    and whose lines all have three tab-separated fields or more; on a file
    without lines it raises [ZeroDivisionError], from the division of the
    sum of the lengths by the number of documents. *)
Theorem build_needs_a_well_formed_corpus {S : Type} `{PyNum S}
    (lines : list string) (b k : S) :
  (lines = [] → build_from_file lines b k = Raise ZeroDivisionError)
  ∧ (returns (build_from_file lines b k) →
     lines ≠ []
     ∧ Forall (λ line, 3 ≤ Str.num_fields (Str.strip line))%nat lines).
Proof.
  split; [by intros ->|].
  intros [idx Hbuild]. split; [by intros ->|].
  apply Forall_forall. intros line Hin.
  destruct (decide (3 ≤ Str.num_fields (Str.strip line))%nat) as [|Hshort]; [done|].
  unfold build_from_file, first_pass in Hbuild.
  rewrite (first_pass_short_line lines _ line empty_tf_index_ok Hin) in Hbuild by lia.
  discriminate Hbuild.
Qed.

(** ** [process_query] on any index *)

(** [process_query] never raises: [re.split] gives at least one piece, so
    [keywords[0]] exists, also for the empty query. *)
Theorem process_query_never_raises {S : Type} `{PyNum S}
    (inverted_lists : gmap string (list posting)) (query : string) :
  returns (process_query inverted_lists query).
Proof. apply process_query_returns. Qed.

(** A keyword that is no word of the index empties the result, wherever it
    stands in the query. *)
Theorem unknown_keyword_empties_result {S : Type} `{PyNum S}
    (inverted_lists : gmap string (list posting)) (query key : string) :
  key ∈ Str.re_split query → inverted_lists !! key = None →
  process_query inverted_lists query = Ok [].
Proof. apply process_query_unknown_keyword. Qed.

Lemma unknown_keyword_empties_result_witness :
  "qux" ∈ Str.re_split "foo qux bar" ∧ doctest_index !! "qux" = None
  ∧ process_query (H := Float64.float_num Float64.log2_series)
      doctest_index "foo qux bar" = Ok [].
Proof.
  assert ("qux" ∈ Str.re_split "foo qux bar") as Hin by (right; left).
  assert (doctest_index !! "qux" = None) as Hnone by (vm_compute; reflexivity).
  split; [exact Hin|]. split; [exact Hnone|].
  exact (unknown_keyword_empties_result
           (H := Float64.float_num Float64.log2_series) _ _ _ Hin Hnone).
Defined.

(** ** Runs on the example corpora *)

Lemma capitalised_corpus_built :
  ∃ idx, build_from_file (H := Float64.float_num Float64.log2_series)
           capitalised_corpus 0.75%float 1.75%float = Ok idx
    ∧ ∃ l, inverted_lists idx !! "movie" = Some l ∧ l.*1 = [1].
Proof.
  eexists. split; [vm_compute; reflexivity|].
  eexists. split; [vm_compute; reflexivity|reflexivity].
Defined.

Lemma built_index_lists_the_lines_with_the_word_witness :
  ∃ idx, build_from_file (H := Float64.float_num Float64.log2_series)
           capitalised_corpus 0.75%float 1.75%float = Ok idx
    ∧ (∀ word, doc_ids <$> inverted_lists idx !! word
               = doc_ids <$> list_or_absent (postings_from word 1 capitalised_corpus))
    ∧ length (docs idx) = length capitalised_corpus.
Proof.
  destruct capitalised_corpus_built as (idx & Hbuild & _).
  exists idx. split; [exact Hbuild|].
  exact (built_index_lists_the_lines_with_the_word
           (H := Float64.float_num Float64.log2_series) _ _ _ idx Hbuild).
Defined.

Lemma built_postings_name_stored_documents_witness :
  ∃ idx l, build_from_file (H := Float64.float_num Float64.log2_series)
             capitalised_corpus 0.75%float 1.75%float = Ok idx
    ∧ inverted_lists idx !! "movie" = Some l ∧ 1 ∈ l.*1
    ∧ 1 ≤ 1 ≤ Z.of_nat (length (docs idx)) ∧ returns (py_get (docs idx) (1 - 1)).
Proof.
  destruct capitalised_corpus_built as (idx & Hbuild & l & Hl & Hids).
  assert (1 ∈ l.*1) as Hin by (rewrite Hids; left).
  exists idx, l. split; [exact Hbuild|]. split; [exact Hl|]. split; [exact Hin|].
  exact (built_postings_name_stored_documents
           (H := Float64.float_num Float64.log2_series) _ _ _ idx "movie" l 1
           Hbuild Hl Hin).
Defined.

Lemma capital_letter_in_query_finds_nothing_witness :
  ∃ idx, build_from_file (H := Float64.float_num Float64.log2_series)
           capitalised_corpus 0.75%float 1.75%float = Ok idx
    ∧ "M"%char ∈ chars "good Movie" ∧ is_upper "M"%char = true
    ∧ process_query (H := Float64.float_num Float64.log2_series)
        (inverted_lists idx) "good Movie" = Ok [].
Proof.
  destruct capitalised_corpus_built as (idx & Hbuild & _).
  assert ("M"%char ∈ chars "good Movie") as Hin by (do 5 right; left).
  assert (is_upper "M"%char = true) as Hupper by reflexivity.
  exists idx. split; [exact Hbuild|]. split; [exact Hin|]. split; [exact Hupper|].
  exact (capital_letter_in_query_finds_nothing
           (H := Float64.float_num Float64.log2_series) _ _ _ idx _ _
           Hbuild Hin Hupper).
Defined.

Lemma separator_at_the_edge_finds_nothing_witness :
  ∃ idx, build_from_file (H := Float64.float_num Float64.log2_series)
           capitalised_corpus 0.75%float 1.75%float = Ok idx
    ∧ ("movie?" = EmptyString
       ∨ (∃ c rest, "movie?" = String c rest ∧ Str.is_alpha c = false)
       ∨ (∃ c start, "movie?" = (start +:+ String c EmptyString)%string
                     ∧ Str.is_alpha c = false))
    ∧ process_query (H := Float64.float_num Float64.log2_series)
        (inverted_lists idx) "movie?" = Ok [].
Proof.
  destruct capitalised_corpus_built as (idx & Hbuild & _).
  assert ("movie?" = EmptyString
          ∨ (∃ c rest, "movie?" = String c rest ∧ Str.is_alpha c = false)
          ∨ (∃ c start, "movie?" = (start +:+ String c EmptyString)%string
                        ∧ Str.is_alpha c = false)) as Hedge.
  { right; right. exists "?"%char, "movie". split; reflexivity. }
  exists idx. split; [exact Hbuild|]. split; [exact Hedge|].
  exact (separator_at_the_edge_finds_nothing
           (H := Float64.float_num Float64.log2_series) _ _ _ idx _ Hbuild Hedge).
Defined.


Lemma build_fails_on_short_line_witness :
  "solo" ∈ ["Movie" +:+ String Str.tab "film" +:+ String Str.tab "1"; "solo"]%string
  ∧ (Str.num_fields (Str.strip "solo") < 3)%nat
  ∧ build_from_file (H := Float64.float_num Float64.log2_series)
      ["Movie" +:+ String Str.tab "film" +:+ String Str.tab "1"; "solo"]%string
      0.75%float 1.75%float
    = Raise ValueError.
Proof.
  assert ("solo" ∈ ["Movie" +:+ String Str.tab "film" +:+ String Str.tab "1";
                    "solo"]%string) as Hin by (right; left).
  assert (Str.num_fields (Str.strip "solo") < 3)%nat as Hshort by (vm_compute; lia).
  split; [exact Hin|]. split; [exact Hshort|].
  exact (build_fails_on_short_line (H := Float64.float_num Float64.log2_series)
           _ _ _ "solo" Hin Hshort).
Defined.

(** ** More on the measures of [evaluate.py] *)

Module EvaluateBounds.
Import Evaluate EvaluateFacts.

Lemma sum_from_bounds (l : list Q) (acc : Q) :
  Forall (λ x, 0 <= x <= 1)%Q l →
  (acc <= foldl Qplus acc l <= acc + inject_Z (Z.of_nat (length l)))%Q.
Proof.
  intros Hl. revert acc. induction Hl as [|x l [Hx0 Hx1] _ IH]; intros acc.
  - cbn [foldl length]. change (inject_Z (Z.of_nat 0)) with 0%Q. lra.
  - cbn [foldl length]. destruct (IH (acc + x)%Q) as [Hlow Hhigh].
    rewrite Nat2Z.inj_succ, <- Z.add_1_l, inject_Z_plus.
    change (inject_Z 1) with 1%Q. lra.
Qed.

Lemma sum_bounds (l : list Q) :
  Forall (λ x, 0 <= x <= 1)%Q l →
  (0 <= sum l <= inject_Z (Z.of_nat (length l)))%Q.
Proof.
  intros Hl. destruct (sum_from_bounds l 0%Q Hl) as [Hlow Hhigh].
  unfold sum. lra.
Qed.

Lemma quotient_bounds (s : Q) (m n : Z) :
  (0 <= s <= inject_Z m)%Q → m ≤ n → 0 < n → (0 <= s / inject_Z n <= 1)%Q.
Proof.
  intros [Hs0 Hsm] Hmn Hn.
  assert (0 < inject_Z n)%Q as Hn'
    by (change 0%Q with (inject_Z 0); rewrite <- Zlt_Qlt; exact Hn).
  assert (inject_Z m <= inject_Z n)%Q as Hmn' by (rewrite <- Zle_Qle; exact Hmn).
  split.
  - apply Qle_shift_div_l; [exact Hn'|]. lra.
  - apply Qle_shift_div_r; [exact Hn'|]. lra.
Qed.

Lemma precision_among_first_bounds (result_ids : list Z) (relevant_ids : gset Z)
    (r : nat) :
  (1 ≤ r)%nat →
  (0 <= precision_among_first result_ids relevant_ids r <= 1)%Q.
Proof.
  intros Hr. unfold precision_among_first.
  pose proof (hits_le_length relevant_ids (take r result_ids)) as Hle.
  rewrite length_take in Hle. apply fraction_bounds; lia.
Qed.

(** The value [average_precision] returns, in one formula. *)
Lemma average_precision_value (result_ids : list Z) (relevant_ids : gset Z) :
  average_precision result_ids relevant_ids
  = Ok (match found result_ids relevant_ids with
        | [] => 0
        | ids =>
            sum (map (λ a, precision_among_first result_ids relevant_ids
                             (rank result_ids a)) ids)
            / inject_Z (Z.of_nat (size relevant_ids))
        end)%Q.
Proof.
  unfold average_precision. rewrite positions_loop. simpl.
  fold (found result_ids relevant_ids).
  rewrite precisions_loop by apply Forall_forall, list_elem_of_filter.
  simpl. rewrite length_map.
  by destruct (found result_ids relevant_ids).
Qed.

Lemma found_in_results (result_ids : list Z) (relevant_ids : gset Z) (a : Z) :
  a ∈ found result_ids relevant_ids → a ∈ result_ids ∧ a ∈ relevant_ids.
Proof.
  unfold found. intros [Hin Ha]%list_elem_of_filter.
  split; [done|]. by apply elem_of_elements.
Qed.

Lemma average_precision_bounds (result_ids : list Z) (relevant_ids : gset Z) :
  ∃ v, average_precision result_ids relevant_ids = Ok v ∧ (0 <= v <= 1)%Q.
Proof.
  rewrite average_precision_value. eexists. split; [reflexivity|].
  destruct (found result_ids relevant_ids) as [|a ids] eqn:Hfound; [lra|].
  rewrite <- Hfound.
  assert (length (found result_ids relevant_ids) ≤ size relevant_ids)%nat as Hlen
    by apply length_filter.
  assert (0 < length (found result_ids relevant_ids))%nat as Hpos
    by (rewrite Hfound; simpl; lia).
  apply (quotient_bounds _ (Z.of_nat (length (found result_ids relevant_ids))));
    [|lia|lia].
  rewrite <- (length_map (λ a, precision_among_first result_ids relevant_ids
                                 (rank result_ids a))).
  apply sum_bounds. apply Forall_map, Forall_forall. intros x Hx.
  apply precision_among_first_bounds.
  apply found_in_results in Hx as [Hx _].
  by destruct (rank_first_occurrence result_ids x Hx).
Qed.

(** [average_precision] never raises, and its value lies between 0 and 1. *)
Theorem average_precision_in_unit_interval
    (result_ids : list Z) (relevant_ids : gset Z) :
  ∃ v, average_precision result_ids relevant_ids = Ok v ∧ (0 <= v <= 1)%Q.
Proof. apply average_precision_bounds. Qed.

(** For a negative [k] the slice [result_ids[:k]] leaves out the last [-k]
    results; [precision_at_k] does not raise, and returns the number of
    relevant ids among the others divided by the negative [k], a value that
    is not positive. *)
Theorem precision_at_negative_k (result_ids : list Z) (relevant_ids : gset Z) (k : Z) :
  k < 0 →
  ∃ v, precision_at_k result_ids relevant_ids k = Ok v
    ∧ v = (inject_Z (Z.of_nat (hits relevant_ids
                                 (take (length result_ids - Z.to_nat (- k)) result_ids)))
           / inject_Z k)%Q
    ∧ (v <= 0)%Q.
Proof.
  intros Hk. unfold precision_at_k, slice_to.
  destruct (k <? 0) eqn:Hneg; [|lia].
  destruct (k =? 0) eqn:Hz; [lia|].
  rewrite count_loop, Z.add_0_l.
  eexists. split; [reflexivity|]. split; [reflexivity|].
  set (c := Z.of_nat _). assert (0 ≤ c) as Hc by lia. clearbody c.
  destruct k as [|p|p]; try lia.
  unfold Qle, Qdiv, Qmult, Qinv, inject_Z. simpl. nia.
Qed.

Lemma precision_at_negative_k_witness :
  -2 < 0
  ∧ ∃ v, precision_at_k [5; 3; 6; 1; 2] {[1; 2; 5; 6; 7; 8]} (-2) = Ok v
      ∧ v = (inject_Z (Z.of_nat (hits {[1; 2; 5; 6; 7; 8]}%Z
                                   (take (length [5; 3; 6; 1; 2]%Z - Z.to_nat (- -2))
                                         [5; 3; 6; 1; 2]%Z)))
             / inject_Z (-2))%Q
      ∧ (v <= 0)%Q.
Proof.
  split; [lia|].
  apply (precision_at_negative_k [5; 3; 6; 1; 2] {[1; 2; 5; 6; 7; 8]} (-2)). lia.
Defined.

Lemma sum_from_ones (l : list Q) (acc : Q) :
  Forall (λ x, x == 1)%Q l →
  (foldl Qplus acc l == acc + inject_Z (Z.of_nat (length l)))%Q.
Proof.
  intros Hl. revert acc. induction Hl as [|x l Hx _ IH]; intros acc.
  - cbn [foldl length]. change (inject_Z (Z.of_nat 0)) with 0%Q. lra.
  - cbn [foldl length]. rewrite IH.
    rewrite Nat2Z.inj_succ, <- Z.add_1_l, inject_Z_plus.
    change (inject_Z 1) with 1%Q. lra.
Qed.

Lemma filter_all {A} (P : A → Prop) `{∀ x, Decision (P x)} (l : list A) :
  Forall P l → filter P l = l.
Proof.
  induction 1 as [|x l Hx _ IH]; [done|].
  by rewrite filter_cons, decide_True, IH.
Qed.

Lemma quotient_by_itself (n : Z) : 0 < n → (inject_Z n / inject_Z n == 1)%Q.
Proof.
  intros Hn. apply Qmult_inv_r.
  intros Heq. apply (inject_Z_injective n 0) in Heq. lia.
Qed.

(** The precision at the rank of an id that stands among the first [n]
    results is 1 when these are all relevant. *)
Lemma precision_at_rank_in_perfect_prefix
    (result_ids : list Z) (relevant_ids : gset Z) (n : nat) (a : Z) :
  (∀ x, x ∈ take n result_ids → x ∈ relevant_ids) →
  a ∈ take n result_ids →
  (precision_among_first result_ids relevant_ids (rank result_ids a) == 1)%Q.
Proof.
  intros Hprefix Ha.
  apply elem_of_take in Ha as (j & Hj & Hjn).
  assert (a ∈ result_ids) as Hin by (by eapply list_elem_of_lookup_2).
  destruct (rank_first_occurrence result_ids a Hin) as (Hpos & Hat & Hfirst).
  assert (rank result_ids a ≤ n)%nat as Hrank.
  { destruct (decide (j < pred (rank result_ids a))%nat) as [Hlt|Hge]; [|lia].
    by destruct (Hfirst j Hlt). }
  assert (rank result_ids a ≤ length result_ids)%nat as Hlen.
  { apply lookup_lt_Some in Hat. lia. }
  unfold precision_among_first, hits.
  rewrite filter_all.
  - rewrite length_take, Nat.min_l by lia. apply quotient_by_itself. lia.
  - apply Forall_forall. intros x Hx. apply Hprefix.
    apply elem_of_take in Hx as (i & Hi & Hir).
    apply elem_of_take. exists i. split; [done|lia].
Qed.

(** When the relevant ids are exactly the first results, in any order,
    [average_precision] returns 1. *)
Theorem average_precision_of_perfect_ranking
    (result_ids : list Z) (relevant_ids : gset Z) :
  relevant_ids ≠ ∅ →
  take (size relevant_ids) result_ids ≡ₚ elements relevant_ids →
  ∃ v, average_precision result_ids relevant_ids = Ok v ∧ (v == 1)%Q.
Proof.
  intros Hne Hperm. rewrite average_precision_value. eexists. split; [reflexivity|].
  assert (∀ x, x ∈ take (size relevant_ids) result_ids ↔ x ∈ relevant_ids) as Hprefix.
  { intros x. by rewrite Hperm, elem_of_elements. }
  assert (found result_ids relevant_ids = elements relevant_ids) as Hfound.
  { apply filter_all, Forall_forall. intros x Hx%elem_of_elements.
    apply Hprefix, elem_of_take in Hx as (i & Hi & _).
    by eapply list_elem_of_lookup_2. }
  rewrite Hfound.
  assert (0 < size relevant_ids)%nat as Hsize.
  { destruct (decide (size relevant_ids = 0)%nat) as [Hz%size_empty_inv|]; [|lia].
    by apply leibniz_equiv in Hz. }
  destruct (elements relevant_ids) as [|a ids] eqn:Hel.
  { apply elements_empty_inv in Hel. by apply leibniz_equiv in Hel. }
  rewrite <- Hel. unfold sum. rewrite sum_from_ones.
  - rewrite length_map. change (length (elements relevant_ids)) with (size relevant_ids).
    rewrite Qplus_0_l. apply quotient_by_itself. lia.
  - apply Forall_map, Forall_forall. intros x Hx%elem_of_elements.
    apply (precision_at_rank_in_perfect_prefix _ _ (size relevant_ids)).
    + intros y. apply Hprefix.
    + by apply Hprefix.
Qed.

Lemma average_precision_of_perfect_ranking_witness :
  ({[5; 7; 42]} : gset Z) ≠ ∅
  ∧ take (size ({[5; 7; 42]} : gset Z)) [7; 5; 42; 9] ≡ₚ elements ({[5; 7; 42]} : gset Z)
  ∧ ∃ v, average_precision [7; 5; 42; 9] {[5; 7; 42]} = Ok v ∧ (v == 1)%Q.
Proof.
  assert (({[5; 7; 42]} : gset Z) ≠ ∅) as Hne.
  { intros Heq. assert (5 ∈ (∅ : gset Z)) as Hin by (rewrite <- Heq; set_solver).
    by apply not_elem_of_empty in Hin. }
  assert (take (size ({[5; 7; 42]} : gset Z)) [7; 5; 42; 9]
          ≡ₚ elements ({[5; 7; 42]} : gset Z)) as Hperm.
  { replace (elements ({[5; 7; 42]} : gset Z)) with [7; 5; 42]
      by (vm_compute; reflexivity).
    replace (size ({[5; 7; 42]} : gset Z)) with 3%nat by (vm_compute; reflexivity).
    reflexivity. }
  split; [exact Hne|]. split; [exact Hperm|].
  exact (average_precision_of_perfect_ranking [7; 5; 42; 9] {[5; 7; 42]} Hne Hperm).
Defined.

End EvaluateBounds.

(** ** [evaluate] *)

Lemma bind_Ok {A B} (a : A) (k : A → result B) : Ok a ≫= k = k a.
Proof. reflexivity. Qed.

Section EvaluateProperties.
Context {S : Type} `{PyNum S}.
#[local] Abbreviation posting := (@posting S).
Import Evaluate EvaluateFacts EvaluateBounds.

Lemma evaluate_entry_without_relevant_ids
    (inverted_lists : gmap string (list posting))
    (measures : list Q * list Q * list Q) (query : string) :
  evaluate_entry inverted_lists measures (query, []) = Raise ZeroDivisionError.
Proof.
  destruct measures as [[MP3 MPR] MAP]. unfold evaluate_entry.
  destruct (process_query_returns inverted_lists query) as [ids ->].
  rewrite bind_Ok, (precision_at_positive ids _ 3), bind_Ok by lia. reflexivity.
Qed.

Lemma evaluate_entry_with_relevant_ids
    (inverted_lists : gmap string (list posting))
    (MP3 MPR MAP : list Q) (query : string) (relevant_ids : list Z) :
  relevant_ids ≠ [] →
  ∃ p3 pr ap,
    evaluate_entry inverted_lists (MP3, MPR, MAP) (query, relevant_ids)
    = Ok (MP3 ++ [p3], MPR ++ [pr], MAP ++ [ap])
    ∧ (0 <= p3 <= 1)%Q ∧ (0 <= pr <= 1)%Q ∧ (0 <= ap <= 1)%Q.
Proof.
  intros Hne. unfold evaluate_entry.
  destruct (process_query_returns inverted_lists query) as [ids ->].
  assert (0 < Z.of_nat (length relevant_ids)) as Hlen
    by (destruct relevant_ids; cbn [length]; [done|lia]).
  rewrite bind_Ok, (precision_at_positive ids _ 3), bind_Ok by lia.
  rewrite (precision_at_positive ids _ (Z.of_nat (length relevant_ids))), bind_Ok
    by lia.
  destruct (average_precision_bounds ids (list_to_set relevant_ids)) as (ap & -> & Hap).
  rewrite bind_Ok. eexists _, _, ap. split; [reflexivity|].
  split; [|split; [|done]]; apply precision_among_first_bounds; lia.
Qed.

Lemma evaluate_loop_raises (inverted_lists : gmap string (list posting))
    (benchmark : list (string * list Z)) (measures : list Q * list Q * list Q)
    (query : string) :
  (query, []) ∈ benchmark →
  for_each (evaluate_entry inverted_lists) benchmark measures
  = Raise ZeroDivisionError.
Proof.
  intros Hin. revert measures.
  induction benchmark as [|[q rel] benchmark IH]; intros [[MP3 MPR] MAP];
    [by apply elem_of_nil in Hin|].
  cbn [for_each]. destruct rel as [|a rel].
  - by rewrite evaluate_entry_without_relevant_ids.
  - destruct (evaluate_entry_with_relevant_ids inverted_lists MP3 MPR MAP q (a :: rel))
      as (p3 & pr & ap & -> & _); [done|].
    simpl. apply IH. by apply elem_of_cons in Hin as [[= _ ?]|Hin].
Qed.

Lemma evaluate_loop_returns (inverted_lists : gmap string (list posting))
    (benchmark : list (string * list Z)) (MP3 MPR MAP : list Q) :
  Forall (λ entry, entry.2 ≠ []) benchmark →
  unit_interval MP3 → unit_interval MPR → unit_interval MAP →
  ∃ MP3' MPR' MAP',
    for_each (evaluate_entry inverted_lists) benchmark (MP3, MPR, MAP)
    = Ok (MP3', MPR', MAP')
    ∧ unit_interval MP3' ∧ unit_interval MPR' ∧ unit_interval MAP'
    ∧ length MP3' = (length MP3 + length benchmark)%nat
    ∧ length MPR' = (length MPR + length benchmark)%nat
    ∧ length MAP' = (length MAP + length benchmark)%nat.
Proof.
  intros Hbench. revert MP3 MPR MAP.
  induction Hbench as [|[q rel] benchmark Hrel _ IH]; intros MP3 MPR MAP H3 HR HA.
  - exists MP3, MPR, MAP. simpl. repeat split; try done; lia.
  - destruct (evaluate_entry_with_relevant_ids inverted_lists MP3 MPR MAP q rel Hrel)
      as (p3 & pr & ap & Hentry & Hp3 & Hpr & Hap).
    cbn [for_each]. rewrite Hentry. simpl.
    destruct (IH (MP3 ++ [p3]) (MPR ++ [pr]) (MAP ++ [ap]))
      as (MP3' & MPR' & MAP' & Hrun & H3' & HR' & HA' & L3 & LR & LA).
    1-3: apply Forall_app; split; [done|by apply Forall_singleton].
    exists MP3', MPR', MAP'. rewrite length_app in L3, LR, LA. simpl in *.
    repeat split; try done; lia.
Qed.

Lemma mean_bounds (l : list Q) :
  l ≠ [] → unit_interval l → ∃ v, mean l = Ok v ∧ (0 <= v <= 1)%Q.
Proof.
  intros Hne Hl. unfold mean.
  destruct l as [|x l]; [done|]. cbn [length Nat.eqb].
  eexists. split; [reflexivity|].
  apply (quotient_bounds _ (Z.of_nat (length (x :: l))));
    [by apply sum_bounds|cbn [length]; lia..].
Qed.

(** [evaluate] raises [ZeroDivisionError] on a benchmark without entries,
    and on a benchmark with an entry without relevant ids. *)
Theorem evaluate_raises (inverted_lists : gmap string (list posting))
    (benchmark : list (string * list Z)) :
  benchmark = [] ∨ (∃ query, (query, []) ∈ benchmark) →
  evaluate inverted_lists benchmark = Raise ZeroDivisionError.
Proof.
  intros [->|[query Hin]]; [reflexivity|].
  unfold evaluate. by rewrite (evaluate_loop_raises _ _ _ query).
Qed.

(** On a benchmark with at least one entry, each with at least one relevant
    id, [evaluate] returns, and each of the three means lies between 0
    and 1. *)
Theorem evaluate_means_in_unit_interval
    (inverted_lists : gmap string (list posting))
    (benchmark : list (string * list Z)) :
  benchmark ≠ [] → Forall (λ entry, entry.2 ≠ []) benchmark →
  ∃ m3 mr ma,
    evaluate inverted_lists benchmark = Ok (m3, mr, ma)
    ∧ (0 <= m3 <= 1)%Q ∧ (0 <= mr <= 1)%Q ∧ (0 <= ma <= 1)%Q.
Proof.
  intros Hne Hbench. unfold evaluate.
  destruct (evaluate_loop_returns inverted_lists benchmark [] [] [])
    as (MP3 & MPR & MAP & Hrun & H3 & HR & HA & L3 & LR & LA);
    [done|constructor|constructor|constructor|].
  rewrite Hrun. simpl.
  assert (0 < length benchmark)%nat as Hlen by (destruct benchmark; simpl; [done|lia]).
  destruct (mean_bounds MP3) as (m3 & -> & Hm3); [by destruct MP3; simpl in *; [lia|]|done|].
  destruct (mean_bounds MPR) as (mr & -> & Hmr); [by destruct MPR; simpl in *; [lia|]|done|].
  destruct (mean_bounds MAP) as (ma & -> & Hma); [by destruct MAP; simpl in *; [lia|]|done|].
  simpl. by exists m3, mr, ma.
Qed.

End EvaluateProperties.

Lemma evaluate_raises_witness :
  ([("foo", [1; 3]); ("bar", [])] = []
   ∨ ∃ query, (query, []) ∈ [("foo", [1; 3]); ("bar", [])])
  ∧ evaluate (H := Float64.float_num Float64.log2_series) doctest_index
      [("foo", [1; 3]); ("bar", [])]
    = Raise ZeroDivisionError.
Proof.
  assert ([("foo", [1; 3]); ("bar", [])] = []
          ∨ ∃ query, (query, []) ∈ [("foo", [1; 3]); ("bar", [])]) as Hbad.
  { right. exists "bar". right. left. }
  split; [exact Hbad|].
  exact (evaluate_raises (H := Float64.float_num Float64.log2_series) _ _ Hbad).
Defined.

Lemma evaluate_means_in_unit_interval_witness :
  [("foo bar", [1; 3]); ("baz", [2])] ≠ []
  ∧ Forall (λ entry : string * list Z, entry.2 ≠ []) [("foo bar", [1; 3]); ("baz", [2])]
  ∧ ∃ m3 mr ma,
      evaluate (H := Float64.float_num Float64.log2_series) doctest_index
        [("foo bar", [1; 3]); ("baz", [2])]
      = Ok (m3, mr, ma)
      ∧ (0 <= m3 <= 1)%Q ∧ (0 <= mr <= 1)%Q ∧ (0 <= ma <= 1)%Q.
Proof.
  assert ([("foo bar", [1; 3]); ("baz", [2])] ≠ []) as Hne by done.
  assert (Forall (λ entry : string * list Z, entry.2 ≠ [])
            [("foo bar", [1; 3]); ("baz", [2])]) as Hrel
    by (repeat constructor; done).
  split; [exact Hne|]. split; [exact Hrel|].
  exact (evaluate_means_in_unit_interval
           (H := Float64.float_num Float64.log2_series) doctest_index _ Hne Hrel).
Defined.

(** ** When [process_query] finds something *)

Section QueryResults.
Context {S : Type} `{PyNum S}.
#[local] Abbreviation posting := (@posting S).
#[local] Abbreviation index := (@index S).

(** What [merge] has appended stays: the result begins with [union]. *)
Lemma merge_loop_extends (rest1 rest2 union : list posting) :
  ∃ tail, merge_loop rest1 rest2 union = union ++ tail.
Proof.
  apply (merge_loop_rounds (λ rest1 rest2 union out, ∃ tail, out = union ++ tail)).
  - intros r2 u. exists []. by rewrite app_nil_r.
  - intros r1 u. exists []. by rewrite app_nil_r.
  - intros p1 p2 r1 r2 u out _ [tail ->]. eexists. by rewrite <- app_assoc.
  - intros p1 p2 r1 r2 u out _ [tail ->]. eexists. by rewrite <- app_assoc.
  - intros p1 p2 r1 r2 u out _ [tail ->]. eexists. by rewrite <- app_assoc.
Qed.

Lemma merge_not_nil (list1 list2 : list posting) :
  list1 ≠ [] → list2 ≠ [] → merge list1 list2 ≠ [].
Proof.
  intros H1 H2. unfold merge.
  destruct list1 as [|p1 r1]; [done|]. destruct list2 as [|p2 r2]; [done|].
  destruct (Z.lt_trichotomy p2.1 p1.1) as [Hlt|[Heq|Hgt]].
  - rewrite merge_loop_copy by done.
    match goal with
    | |- merge_loop ?a ?b ?c ≠ [] => destruct (merge_loop_extends a b c) as [tail ->]
    end. done.
  - rewrite merge_loop_equal by done.
    match goal with
    | |- merge_loop ?a ?b ?c ≠ [] => destruct (merge_loop_extends a b c) as [tail ->]
    end. done.
  - rewrite merge_loop_keep by done.
    match goal with
    | |- merge_loop ?a ?b ?c ≠ [] => destruct (merge_loop_extends a b c) as [tail ->]
    end. done.
Qed.

Lemma fold_keywords_not_nil (inverted_lists : gmap string (list posting))
    (keys : list string) (union : list posting) :
  map_Forall (λ _ l, l ≠ []) inverted_lists →
  Forall (λ key, is_Some (inverted_lists !! key)) keys →
  union ≠ [] →
  foldl (fold_keyword inverted_lists) union keys ≠ [].
Proof.
  intros Hlists Hkeys. revert union.
  induction Hkeys as [|key keys [l Hl] _ IH]; intros union Hunion; [done|].
  simpl. apply IH. unfold fold_keyword. rewrite Hl.
  apply merge_not_nil; [done|]. by apply (Hlists key).
Qed.

Lemma process_query_finds (inverted_lists : gmap string (list posting))
    (query : string) (ids : list Z) :
  map_Forall (λ _ l, l ≠ []) inverted_lists →
  process_query inverted_lists query = Ok ids →
  ids ≠ [] ↔ Forall (λ key, is_Some (inverted_lists !! key)) (Str.re_split query).
Proof.
  intros Hlists Hrun. split.
  - intros Hne. apply Forall_forall. intros key Hkey.
    destruct (inverted_lists !! key) as [l|] eqn:Hl; [by eexists|].
    rewrite (process_query_unknown_keyword _ _ key Hkey Hl) in Hrun.
    by injection Hrun as <-.
  - intros Hkeys. unfold process_query in Hrun.
    destruct (Str.re_split query) as [|k0 ks] eqn:Hks; [done|].
    apply bind_Ok_inv in Hrun as (first & Hfirst & Hrun).
    rewrite py_get_head in Hfirst. injection Hfirst as <-.
    injection Hrun as <-. intros Hnil.
    apply fmap_nil_inv in Hnil.
    match type of Hnil with
    | sorted_by_score ?U = [] => pose proof (sorted_by_score_perm U) as Hperm
    end.
    rewrite Hnil in Hperm. apply Permutation_nil in Hperm.
    revert Hperm.
    pose proof Hkeys as Hfirst. apply Forall_cons in Hfirst as [[l Hl] _].
    rewrite Hl.
    apply (fold_keywords_not_nil inverted_lists (k0 :: ks) l); [done|done|].
    by apply (Hlists k0).
Qed.

Lemma built_lists_not_nil (lines : list string) (b k : S) (idx : index) :
  build_from_file lines b k = Ok idx →
  map_Forall (λ _ l, l ≠ []) (inverted_lists idx).
Proof.
  intros Hbuild word l Hl ->.
  destruct (built_index_lists lines b k idx Hbuild) as [Hlists _].
  specialize (Hlists word). unfold posting in *. rewrite Hl in Hlists.
  by destruct (postings_from word 1 lines).
Qed.

(** On a built index [process_query] finds at least one document exactly
    when every piece [re.split] cuts from the query is a word of the
    index. *)
Theorem query_finds_iff_every_keyword_known
    (lines : list string) (b k : S) (idx : index) (query : string) (ids : list Z) :
  build_from_file lines b k = Ok idx →
  process_query (inverted_lists idx) query = Ok ids →
  ids ≠ [] ↔ Forall (λ key, is_Some (inverted_lists idx !! key)) (Str.re_split query).
Proof.
  intros Hbuild. apply process_query_finds. by apply (built_lists_not_nil lines b k).
Qed.

End QueryResults.

Lemma query_finds_iff_every_keyword_known_witness :
  ∃ idx, build_from_file (H := Float64.float_num Float64.log2_series)
           capitalised_corpus 0.75%float 1.75%float = Ok idx
    ∧ process_query (H := Float64.float_num Float64.log2_series)
        (inverted_lists idx) "film movie" = Ok [1]
    ∧ ([1] ≠ [] ↔ Forall (λ key, is_Some (inverted_lists idx !! key))
                          (Str.re_split "film movie")).
Proof.
  assert (∃ idx, build_from_file (H := Float64.float_num Float64.log2_series)
                   capitalised_corpus 0.75%float 1.75%float = Ok idx
                 ∧ process_query (H := Float64.float_num Float64.log2_series)
                     (inverted_lists idx) "film movie" = Ok [1])
    as (idx & Hbuild & Hquery).
  { eexists. split; vm_compute; reflexivity. }
  exists idx. split; [exact Hbuild|]. split; [exact Hquery|].
  exact (query_finds_iff_every_keyword_known
           (H := Float64.float_num Float64.log2_series) _ _ _ idx _ _ Hbuild Hquery).
Defined.

(** ** The stored documents *)

Lemma append_empty_l (s : string) : (EmptyString +:+ s)%string = s.
Proof. reflexivity. Qed.

Lemma append_cons (c : ascii) (s1 s2 : string) :
  (String c s1 +:+ s2)%string = String c (s1 +:+ s2).
Proof. reflexivity. Qed.

Lemma append_assoc (s1 s2 s3 : string) :
  ((s1 +:+ s2) +:+ s3)%string = (s1 +:+ (s2 +:+ s3))%string.
Proof.
  induction s1 as [|c s1 IH]; [done|]. rewrite !append_cons. by f_equal.
Qed.

(** A split with more than one part cuts at the first tab. *)
Lemma split_tab_from_first (maxsplit : nat) (s piece t q : string) (rest : list string) :
  Str.tab ∉ chars piece →
  Str.split_tab_from maxsplit s piece = t :: q :: rest →
  (Str.tab ∉ chars t)
  ∧ ∃ s' m, maxsplit = Datatypes.S m
            ∧ q :: rest = Str.split_tab_from m s' EmptyString
            ∧ (piece +:+ s)%string = (t +:+ String Str.tab s')%string.
Proof.
  revert piece. induction s as [|c s IH]; intros piece Hpiece Hsplit; [done|].
  simpl in Hsplit. destruct maxsplit as [|m]; [done|].
  destruct (Ascii.eqb_spec c Str.tab) as [->|Hc].
  - injection Hsplit as <- Hrest. split; [done|]. by exists s, m.
  - destruct (IH (piece +:+ String c EmptyString)%string) as (Ht & s' & m' & Hm & Hq & Hs).
    + rewrite chars_append, elem_of_app. intros [?|Hin]; [done|].
      apply list_elem_of_singleton in Hin. congruence.
    + done.
    + split; [done|]. exists s', m'. split; [done|]. split; [done|].
      rewrite <- Hs. by rewrite append_assoc, append_cons, append_empty_l.
Qed.

Lemma split_tab_three (s t d r : string) :
  Str.split_tab 2 s = [t; d; r] →
  s = (t +:+ String Str.tab (d +:+ String Str.tab r))%string
  ∧ (Str.tab ∉ chars t) ∧ (Str.tab ∉ chars d).
Proof.
  unfold Str.split_tab. intros Hsplit.
  assert (Str.tab ∉ chars EmptyString) as Hnil by apply not_elem_of_nil.
  destruct (split_tab_from_first 2 s EmptyString t d [r] Hnil Hsplit)
    as (Ht & s1 & m1 & [= <-] & Hrest & Hs).
  rewrite append_empty_l in Hs.
  destruct (split_tab_from_first 1 s1 EmptyString d r [] Hnil (eq_sym Hrest))
    as (Hd & s2 & m2 & [= <-] & Hlast & Hs1).
  rewrite append_empty_l in Hs1.
  assert (r = s2) as ->.
  { destruct s2; cbn [Str.split_tab_from] in Hlast;
      rewrite ?append_empty_l in Hlast; congruence. }
  by rewrite Hs, Hs1.
Qed.

(** [re.split] leaves an empty piece at most at each end. *)
Lemma re_split_from_empty_pieces (s piece : string) (in_sep : bool) :
  (in_sep = true → piece = EmptyString) →
  (length (filter (λ p, p = EmptyString) (Str.re_split_from s piece in_sep))
   ≤ (if decide (piece = EmptyString ∧ in_sep = false) then 2 else 1))%nat.
Proof.
  revert piece in_sep. induction s as [|c s IH]; intros piece in_sep Hinv; simpl.
  - rewrite filter_cons, filter_nil. repeat case_decide; simpl; lia.
  - destruct (Str.is_alpha c).
    + assert (length (filter (λ p, p = EmptyString)
                        (Str.re_split_from s (piece +:+ String c EmptyString) false))
              ≤ 1)%nat as Hle.
      { pose proof (IH (piece +:+ String c EmptyString)%string false) as IH'.
        rewrite decide_False in IH'; [by apply IH'|].
        intros [Hp _]. by destruct piece. }
      case_decide; lia.
    + destruct in_sep.
      * by apply IH.
      * assert (length (filter (λ p, p = EmptyString)
                          (Str.re_split_from s EmptyString true)) ≤ 1)%nat as Hle.
        { pose proof (IH EmptyString true) as IH'.
          rewrite decide_False in IH'; [by apply IH'|]. by intros [_ ?]. }
        rewrite filter_cons. repeat case_decide; simpl; try lia.
        exfalso. naive_solver.
Qed.

Lemma words_and_empty_pieces (pieces : list string) :
  Forall (λ p, Forall (λ c, Str.is_alpha c = true) (chars p)) pieces →
  length pieces
  = (length (words_of_pieces pieces)
     + length (filter (λ p, p = EmptyString) pieces))%nat.
Proof.
  induction 1 as [|p pieces Hp _ IH]; [done|].
  unfold words_of_pieces in *. rewrite fmap_cons, !filter_cons.
  destruct (normalise_letters p Hp) as [Hnorm _].
  assert (normalise p = EmptyString ↔ p = EmptyString) as Hempty.
  { rewrite Hnorm. by destruct p. }
  cbn [length]. repeat case_decide; cbn [length]; try lia; tauto.
Qed.

Lemma ingest_line_stores (st st' : tf_index) (line : string) :
  ingest_line st line = Ok st' →
  ∃ d, tf_docs st' = tf_docs st ++ [d] ∧ stores line d.
Proof.
  unfold ingest_line. cbv zeta.
  destruct (Str.split_tab 2 (Str.strip line)) as [|t [|d [|r [|x parts]]]] eqn:Hsplit;
    try discriminate.
  intros Hrun. apply bind_Ok_inv in Hrun as (lists & _ & Hrun).
  injection Hrun as <-. eexists. split; [reflexivity|].
  destruct (split_tab_three _ _ _ _ Hsplit) as (Hline & Ht & Hd).
  unfold stores. cbn [fst snd].
  split; [by exists r|]. split; [done|]. split; [done|].
  assert (Forall (λ c, Str.is_alpha c = true) (chars EmptyString)) as Hnil
    by constructor.
  pose proof (re_split_from_letters (Str.strip line) EmptyString false Hnil) as Hletters.
  pose proof (words_and_empty_pieces _ Hletters) as Hcount.
  pose proof (re_split_from_empty_pieces (Str.strip line) EmptyString false) as Hempty.
  rewrite decide_True in Hempty by done.
  unfold words_of_line, Str.re_split. lia.
Qed.

Lemma first_pass_from_stores (lines : list string) (st st' : tf_index) :
  for_each ingest_line lines st = Ok st' →
  ∃ new, tf_docs st' = tf_docs st ++ new ∧ Forall2 stores lines new.
Proof.
  revert st. induction lines as [|line lines IH]; intros st Hrun.
  - injection Hrun as <-. exists []. by rewrite app_nil_r.
  - simpl in Hrun. apply bind_Ok_inv in Hrun as (st1 & Hline & Hrest).
    destruct (ingest_line_stores st st1 line Hline) as (d & Hdocs & Hd).
    destruct (IH st1 Hrest) as (new & Hnew & Hall).
    exists (d :: new). split; [|by constructor].
    by rewrite Hnew, Hdocs, <- app_assoc.
Qed.

(** When [build_from_file] completes, [docs] holds one entry for each line,
    in file order: the title and the description are the first two
    tab-separated fields of the stripped line, and the length is at least
    the number of words of the line and at most two more (the empty pieces
    that [re.split] leaves at the ends of a line are counted too). *)
Theorem built_index_stores_the_documents {S : Type} `{PyNum S}
    (lines : list string) (b k : S) (idx : index) :
  build_from_file lines b k = Ok idx → Forall2 stores lines (docs idx).
Proof.
  intros (st & Hfirst & -> & _)%build_from_file_inv.
  destruct (first_pass_from_stores lines empty_tf_index st Hfirst) as (new & -> & Hall).
  done.
Qed.

Lemma built_index_stores_the_documents_witness :
  ∃ idx, build_from_file (H := Float64.float_num Float64.log2_series)
           capitalised_corpus 0.75%float 1.75%float = Ok idx
    ∧ docs idx = [("Movie", "film", 3)]
    ∧ Forall2 stores capitalised_corpus (docs idx).
Proof.
  assert (∃ idx, build_from_file (H := Float64.float_num Float64.log2_series)
                   capitalised_corpus 0.75%float 1.75%float = Ok idx
                 ∧ docs idx = [("Movie", "film", 3)]) as (idx & Hbuild & Hdocs).
  { eexists. split; vm_compute; reflexivity. }
  exists idx. split; [exact Hbuild|]. split; [exact Hdocs|].
  exact (built_index_stores_the_documents
           (H := Float64.float_num Float64.log2_series) _ _ _ idx Hbuild).
Defined.

Lemma build_needs_a_well_formed_corpus_witness :
  returns (build_from_file (H := Float64.float_num Float64.log2_series)
             capitalised_corpus 0.75%float 1.75%float)
  ∧ capitalised_corpus ≠ []
  ∧ Forall (λ line, 3 ≤ Str.num_fields (Str.strip line))%nat capitalised_corpus.
Proof.
  assert (returns (build_from_file (H := Float64.float_num Float64.log2_series)
                     capitalised_corpus 0.75%float 1.75%float)) as Hreturns.
  { destruct capitalised_corpus_built as (idx & Hbuild & _). by exists idx. }
  split; [exact Hreturns|].
  exact (proj2 (build_needs_a_well_formed_corpus
                  (H := Float64.float_num Float64.log2_series)
                  capitalised_corpus 0.75%float 1.75%float) Hreturns).
Defined.
